(** * npcomp.compiler.pytorch.backend.refjit

    A shallow embedding of [python/npcomp/compiler/pytorch/backend/refjit.py]
    and the properties its description states about it.

    The file sequences calls into collaborators it does not own (the MLIR
    pass manager, the reference JIT, the logging helper, torch tensors).
    Those are kept abstract: a call is an element of [Call], and an
    arbitrary function [ext] says how the outside world answers it.  The
    Python code itself becomes a program in a state-and-exception monad
    whose state carries the outside world, the chronological record of the
    calls made so far with their outcomes, and the attribute dictionary of
    the [CompilerBackend] instance. *)

From stdpp Require Import gmap strings list.

(** ** Python values and the calls that leave this file *)

(** References to Python objects, exceptions, and the state of everything
    that lives outside this file (IR modules, pass managers, the log). *)
Class PyTypes := {
  Obj : Type;
  Exn : Type;
  World : Type;
}.

(** The second argument of [logging.debug]: an object or a [str]. *)
Inductive Arg `{PyTypes} : Type :=
| AObj (o : Obj)
| AStr (s : string).

(** Every expression of the source whose evaluation is done by code outside
    the file.  A method call [o.f(a)] is one call; reading an attribute of
    an external object whose value is used afterwards is a call too. *)
Inductive Call `{PyTypes} : Type :=
| module_context (m : Obj)
    (* imported_module.context *)
| context_enter (c : Obj)
    (* the with statement entering c *)
| context_exit (c : Obj) (exc : option Exn)
    (* the with statement leaving c, normally or with a pending exception *)
| logging_debug (fmt : string) (arg : Arg)
    (* logging.debug(fmt, arg) *)
| logging_debug_enabled
    (* logging.debug_enabled() *)
| get_refjit
    (* refjit_backend.get_refjit() *)
| get_runtime_libs
    (* refjit_backend.get_runtime_libs() *)
| PassManager_parse (pipeline : string)
    (* PassManager.parse(pipeline) *)
| PassManager_new
    (* PassManager() *)
| PassManager_run (pm m : Obj)
    (* pm.run(m) *)
| build_backend_compilation_pipeline (refjit pm : Obj)
    (* refjit.build_backend_compilation_pipeline(pm) *)
| refjit_JITModule (refjit : Obj)
    (* refjit.JITModule *)
| from_compiled_module (cls m libs : Obj)
    (* cls.from_compiled_module(m, libs) *)
| JitModuleInvoker_init (jit_module : Obj)
    (* TorchJitModuleInvoker(jit_module): the class defines no __init__,
       so the instance is built by the inherited constructor *)
| JitModuleInvoker_getitem (self : Obj) (function_name : string)
    (* super().__getitem__(function_name) *)
| Tensor_numpy (t : Obj)
    (* t.numpy() *)
| apply_function (f : Obj) (args : list Obj).
    (* f applied to the unpacked tuple args *)

(** A Python call returns an object or raises. *)
Definition Outcome `{PyTypes} (A : Type) : Type := Exn + A.

(** What the outside world does, and the three builtins the file relies on:
    truth testing, [isinstance(_, torch.Tensor)] and the exception raised
    when an instance attribute is missing. *)
Class Externals `{PyTypes} := {
  ext : Call -> World -> World * Outcome Obj;
  truthy : Obj -> bool;
  isinstance_Tensor : Obj -> bool;
  AttributeError : string -> Exn;
}.

(** ** The monad *)

Section Monad.
Context {T : PyTypes} {E : Externals}.

(** One entry of the record of calls: the call and how it ended. *)
Definition Event : Type := Call * Outcome Obj.

Record State : Type := mkState {
  world : World;
  events : list Event;
  attrs : gmap string Obj;   (* self.__dict__ of the CompilerBackend *)
}.

Definition M (A : Type) : Type := State -> State * Outcome A.

#[global] Instance M_ret : MRet M := fun A (a : A) s => (s, inr a).

#[global] Instance M_bind : MBind M := fun A B (k : A -> M B) (p : M A) s =>
  match p s with
  | (s', inr a) => k a s'
  | (s', inl e) => (s', inl e)
  end.

Definition raise {A : Type} (e : Exn) : M A := fun s => (s, inl e).

(** Run [p] and hand its outcome, normal or not, to the continuation. *)
Definition try {A : Type} (p : M A) : M (Outcome A) := fun s =>
  let '(s', r) := p s in (s', inr r).

(** Make an external call: the world answers, the call is recorded. *)
Definition call (c : Call) : M Obj := fun s =>
  let '(w', r) := ext c (world s) in
  (mkState w' (events s ++ [(c, r)]) (attrs s), r).

(** [self.name] *)
Definition getattr (name : string) : M Obj := fun s =>
  match attrs s !! name with
  | Some v => (s, inr v)
  | None => (s, inl (AttributeError name))
  end.

(** [self.name = v] *)
Definition setattr (name : string) (v : Obj) : M unit := fun s =>
  (mkState (world s) (events s) (<[name := v]> (attrs s)), inr tt).

(** [with mgr as x: body x].  The manager is entered; the body runs; the
    manager is left, also when the body raised, and in that case the
    exception goes on to the caller unless the manager's exit returns a
    true value. *)
Definition with_ (mgr : Obj) (body : Obj -> M unit) : M unit :=
  x ← call (context_enter mgr);
  r ← try (body x);
  match r with
  | inr _ => call (context_exit mgr None) ;; mret tt
  | inl e =>
      suppress ← call (context_exit mgr (Some e));
      if truthy suppress then mret tt else raise e
  end.

(** [args = tuple(f(arg) for arg in args)]: left to right, stopping at
    the first element whose computation raises. *)
Fixpoint for_each {A B : Type} (f : A -> M B) (l : list A) : M (list B) :=
  match l with
  | [] => mret []
  | a :: l' => b ← f a; bs ← for_each f l'; mret (b :: bs)
  end.
End Monad.

(** ** The source *)

Section Source.
Context {T : PyTypes} {E : Externals}.

Definition nl : string := String (Ascii.ascii_of_nat 10) EmptyString.

Definition OBJECT_GRAPH_LOWERING_PASSES : list string := [
  "torch-globalize-pipeline";
  "symbol-dce";
  "torch-adjust-calling-conventions"
].

Definition TORCH_TO_TCF_PASSES : list string := [
  "func(aten-recognize-kernels)";
  "numpy-public-functions-to-tensor";
  "func(numpy-array-to-tensor)";
  "func(torch-refine-types)";
  "numpy-refine-public-return";
  "func(numpy-array-to-tensor)";
  "func(convert-aten-to-tcf)"
].

(** *** class TorchJitModuleInvoker *)

(** The inner function [invoke] of [__getitem__], closed over
    [numpy_invoke]. *)
Definition invoke (numpy_invoke : Obj) (args : list Obj) : M Obj :=
  args ← for_each
    (fun arg => if isinstance_Tensor arg then call (Tensor_numpy arg)
                else mret arg) args;
  call (apply_function numpy_invoke args).

Definition TorchJitModuleInvoker_getitem (self : Obj)
    (function_name : string) : M (list Obj -> M Obj) :=
  numpy_invoke ← call (JitModuleInvoker_getitem self function_name);
  mret (invoke numpy_invoke).

(** *** class CompilerBackend *)

(** [super().__init__()] is [object.__init__] and does nothing. *)
Definition CompilerBackend_init : M unit :=
  refjit ← call get_refjit;
  setattr "_refjit" refjit ;;
  debug ← call logging_debug_enabled;
  setattr "_debug" debug.

(** [if self._debug: logging.debug(fmt, arg)] *)
Definition debug_log (fmt : string) (arg : Arg) : M unit :=
  debug ← getattr "_debug";
  if truthy debug then call (logging_debug fmt arg) ;; mret tt
  else mret tt.

Definition compile (imported_module : Obj) : M Obj :=
  mgr ← call (module_context imported_module);
  with_ mgr (fun context =>
    debug_log ("Initial PyTorch IR:" +:+ nl +:+ "{}")
              (AObj imported_module) ;;
    (* Frontend. *)
    let pipeline_str := String.concat "," TORCH_TO_TCF_PASSES in
    debug_log "Running Torch->TCF pipeline '{}'" (AStr pipeline_str) ;;
    pm ← call (PassManager_parse pipeline_str);
    call (PassManager_run pm imported_module) ;;
    debug_log ("TCF IR:" +:+ nl +:+ "{}") (AObj imported_module) ;;
    (* Backend. *)
    pm ← call PassManager_new;
    refjit ← getattr "_refjit";
    call (build_backend_compilation_pipeline refjit pm) ;;
    call (PassManager_run pm imported_module) ;;
    debug_log ("Backend IR:" +:+ nl +:+ "{}") (AObj imported_module)) ;;
  refjit ← getattr "_refjit";
  cls ← call (refjit_JITModule refjit);
  libs ← call get_runtime_libs;
  jit_module ← call (from_compiled_module cls imported_module libs);
  mret jit_module.

Definition compile_object_graph (imported_module : Obj) : M Obj :=
  mgr ← call (module_context imported_module);
  with_ mgr (fun context =>
    debug_log ("Initial PyTorch object graph IR:" +:+ nl +:+ "{}")
              (AObj imported_module) ;;
    (* Frontend. *)
    let pipeline_str := String.concat "," OBJECT_GRAPH_LOWERING_PASSES in
    debug_log "Running Torch object graph lowering pipeline '{}'"
              (AStr pipeline_str) ;;
    pm ← call (PassManager_parse pipeline_str);
    call (PassManager_run pm imported_module) ;;
    mret tt) ;;
  compile imported_module.

Definition load (jit_module : Obj) : M Obj :=
  call (JitModuleInvoker_init jit_module).
End Source.

(** ** Vocabulary of the statements *)

Section Vocabulary.
Context {T : PyTypes} {E : Externals}.

(** The world, started in [w], answers the calls of [es] one after the
    other with the outcomes recorded there and is left in [w']. *)
Inductive plays : World -> list Event -> World -> Prop :=
| plays_nil w : plays w [] w
| plays_cons w c w1 r es w2 :
    ext c w = (w1, r) -> plays w1 es w2 -> plays w ((c, r) :: es) w2.

Definition is_logging (c : Call) : bool :=
  match c with logging_debug _ _ => true | _ => false end.

Definition is_run (c : Call) : bool :=
  match c with PassManager_run _ _ => true | _ => false end.

Definition is_from_compiled_module (c : Call) : bool :=
  match c with from_compiled_module _ _ _ => true | _ => false end.

(** How an expression of the source reaches a collaborator. *)
Inductive Kind : Type := AttributeRead | ContextProtocol | Invocation.

Definition kind (c : Call) : Kind :=
  match c with
  | module_context _ | refjit_JITModule _ => AttributeRead
  | context_enter _ | context_exit _ _ => ContextProtocol
  | _ => Invocation
  end.

Definition is_invocation (c : Call) : bool :=
  match kind c with Invocation => true | _ => false end.

(** The record of calls without the [logging.debug] ones. *)
Definition nolog (es : list Event) : list Event :=
  List.filter (fun ev => negb (is_logging ev.1)) es.

Definition count (f : Call -> bool) (es : list Event) : nat :=
  length (List.filter (fun ev => f ev.1) es).

(** What the collaborators returned to one successful [compile]. *)
Record CompileAnswers : Type := {
  a_context : Obj;        (* imported_module.context *)
  a_entered : Obj;        (* entering it *)
  a_log_initial : Obj;    (* the four logging.debug calls *)
  a_log_running : Obj;
  a_frontend_pm : Obj;    (* PassManager.parse(...) *)
  a_frontend_run : Obj;   (* pm.run(imported_module) *)
  a_log_tcf : Obj;
  a_backend_pm : Obj;     (* PassManager() *)
  a_build : Obj;          (* build_backend_compilation_pipeline(pm) *)
  a_backend_run : Obj;    (* pm.run(imported_module) *)
  a_log_backend : Obj;
  a_exit : Obj;           (* leaving the context *)
  a_JITModule : Obj;      (* refjit.JITModule *)
  a_libs : Obj;           (* get_runtime_libs() *)
}.

(** A [logging.debug] call, present only when debugging is on. *)
Definition logged (debug : bool) (fmt : string) (arg : Arg) (r : Obj)
    : list Event :=
  if debug then [(logging_debug fmt arg, inr r)] else [].

(** The sequence the description gives for [compile]: the frontend
    pipeline, the backend pipeline, the hand-over to the JIT. *)
Definition compile_sequence (debug : bool) (m refjit : Obj)
    (a : CompileAnswers) (out : Outcome Obj) : list Event :=
  [(module_context m, inr (a_context a));
   (context_enter (a_context a), inr (a_entered a))]
  ++ logged debug ("Initial PyTorch IR:" +:+ nl +:+ "{}") (AObj m)
       (a_log_initial a)
  ++ logged debug "Running Torch->TCF pipeline '{}'"
       (AStr (String.concat "," TORCH_TO_TCF_PASSES)) (a_log_running a)
  ++ [(PassManager_parse (String.concat "," TORCH_TO_TCF_PASSES),
       inr (a_frontend_pm a));
      (PassManager_run (a_frontend_pm a) m, inr (a_frontend_run a))]
  ++ logged debug ("TCF IR:" +:+ nl +:+ "{}") (AObj m) (a_log_tcf a)
  ++ [(PassManager_new, inr (a_backend_pm a));
      (build_backend_compilation_pipeline refjit (a_backend_pm a),
       inr (a_build a));
      (PassManager_run (a_backend_pm a) m, inr (a_backend_run a))]
  ++ logged debug ("Backend IR:" +:+ nl +:+ "{}") (AObj m)
       (a_log_backend a)
  ++ [(context_exit (a_context a) None, inr (a_exit a));
      (refjit_JITModule refjit, inr (a_JITModule a));
      (get_runtime_libs, inr (a_libs a));
      (from_compiled_module (a_JITModule a) m (a_libs a), out)].

(** What the collaborators returned to the lowering block of
    [compile_object_graph]. *)
Record LoweringAnswers : Type := {
  l_context : Obj;
  l_entered : Obj;
  l_log_initial : Obj;
  l_log_running : Obj;
  l_pm : Obj;
  l_run : Obj;
  l_exit : Obj;
}.

(** The object-graph lowering pipeline, run on [m]. *)
Definition lowering_sequence (debug : bool) (m : Obj)
    (a : LoweringAnswers) : list Event :=
  [(module_context m, inr (l_context a));
   (context_enter (l_context a), inr (l_entered a))]
  ++ logged debug ("Initial PyTorch object graph IR:" +:+ nl +:+ "{}")
       (AObj m) (l_log_initial a)
  ++ logged debug "Running Torch object graph lowering pipeline '{}'"
       (AStr (String.concat "," OBJECT_GRAPH_LOWERING_PASSES))
       (l_log_running a)
  ++ [(PassManager_parse (String.concat "," OBJECT_GRAPH_LOWERING_PASSES),
       inr (l_pm a));
      (PassManager_run (l_pm a) m, inr (l_run a));
      (context_exit (l_context a) None, inr (l_exit a))].

(** The [numpy()] calls that turn the tuple [args] into [args']. *)
Definition conversions (args args' : list Obj) : list Event :=
  flat_map
    (fun p => if isinstance_Tensor p.1 then [(Tensor_numpy p.1, inr p.2)]
              else [])
    (zip args args').

(** [args'] has the arguments of [args], one for one and in the same
    order, those that are no tensors being the very same objects. *)
Definition adapted (args args' : list Obj) : Prop :=
  Forall2 (fun arg arg' => isinstance_Tensor arg = false -> arg' = arg)
    args args'.

(** The reading of "three delegate calls" as a count of the calls made by
    a successful [compile]. *)
Definition three_delegate_calls : Prop :=
  forall s m s' j, compile m s = (s', inr j) ->
    exists es, events s' = events s ++ es /\ length es = 3.

(** The event of a context manager being left with the exception [e]
    pending. *)
Definition exit_carrying (e : Exn) (ev : Event) : Prop :=
  exists mgr v, ev = (context_exit mgr (Some e), inr v).

(** A record of calls in which the first call that raised, if there is
    one, decided the outcome [r] and was followed by nothing but context
    managers being left with that exception. *)
Fixpoint settled {A : Type} (r : Outcome A) (es : list Event) : Prop :=
  match es with
  | [] => True
  | (_, inr _) :: es' => settled r es'
  | (_, inl e) :: es' => r = inl e /\ Forall (exit_carrying e) es'
  end.

Definition fail_fast {A : Type} (p : M A) : Prop :=
  forall s s' r, p s = (s', r) ->
    exists es, events s' = events s ++ es /\ settled r es.

(** A context manager that is left with an exception pending lets it
    through: its exit returns, and returns no true value. *)
Definition exit_passes_exceptions : Prop :=
  forall mgr e w, exists w' v,
    ext (context_exit mgr (Some e)) w = (w', inr v) /\ truthy v = false.

(** A call of one of the three methods of a [CompilerBackend]. *)
Inductive MethodCall : Type :=
| call_compile (imported_module : Obj)
| call_compile_object_graph (imported_module : Obj)
| call_load (jit_module : Obj).

(** The state a method call leaves, whether it returned or raised. *)
Definition perform (mc : MethodCall) (s : State) : State :=
  match mc with
  | call_compile m => (compile m s).1
  | call_compile_object_graph m => (compile_object_graph m s).1
  | call_load j => (load j s).1
  end.

Definition perform_all (mcs : list MethodCall) (s : State) : State :=
  foldl (fun s mc => perform mc s) s mcs.

(** A program that leaves the fields of the instance as they are. *)
Definition keeps_attrs {A : Type} (p : M A) : Prop :=
  forall s, attrs (p s).1 = attrs s.

(** [view] is an observation of the world, the text of a module say, that
    nothing but the run of a pass manager changes. *)
Definition only_runs_change {V : Type} (view : World -> V) : Prop :=
  forall c w, is_run c = false -> view (ext c w).1 = view w.

(** [core] is the part of the world that is no log: [logging.debug]
    returns and leaves it alone, *)
Definition logging_is_benign {K : Type} (core : World -> K) : Prop :=
  forall fmt arg w, exists w' v,
    ext (logging_debug fmt arg) w = (w', inr v) /\ core w' = core w.

(** and no other call looks beyond it. *)
Definition core_determines {K : Type} (core : World -> K) : Prop :=
  forall c w1 w2, is_logging c = false -> core w1 = core w2 ->
    (ext c w1).2 = (ext c w2).2 /\ core (ext c w1).1 = core (ext c w2).1.

(** Two states that differ in the log and in the debug flag at most. *)
Definition agree {K : Type} (core : World -> K) (s1 s2 : State) : Prop :=
  core (world s1) = core (world s2)
  /\ nolog (events s1) = nolog (events s2)
  /\ attrs s1 !! "_refjit" = attrs s2 !! "_refjit"
  /\ is_Some (attrs s1 !! "_debug")
  /\ is_Some (attrs s2 !! "_debug").

(** Two programs that, from such states, end in such states with the same
    outcome. *)
Definition alike {K A : Type} (core : World -> K) (p q : M A) : Prop :=
  forall s1 s2, agree core s1 s2 ->
    agree core (p s1).1 (q s2).1 /\ (p s1).2 = (q s2).2.

(** The state after the calls [es] were made and left the world in [w]. *)
Definition after (s : State) (es : list Event) (w : World) : State :=
  mkState w (events s ++ es) (attrs s).
End Vocabulary.

(** ** A small simulated environment

    One concrete choice of collaborators, used to run the definitions above
    on actual inputs.  The text of a module is abstracted to the list of
    pipelines that have been run on it. *)

Module Sim.
Inductive obj : Type :=
| ONone
| OBool (b : bool)
| OInt (n : nat)
| OModule (name : string)
| OContext
| OPassManager (id : nat)
| ORefjit
| OJITModuleClass
| OLibs
| OJit (lowered : list string)
| OInvoker (jit : obj)
| OFunction (name : string)
| OTensor (n : nat)
| ONdarray (n : nat).

Record env : Type := mkEnv {
  ir : list string;            (* pipelines run on the module so far *)
  managers : list (list string); (* the pass managers and their passes *)
  log : list string;           (* what logging.debug wrote *)
  debugging : bool;            (* what logging.debug_enabled() answers *)
}.

#[export] Instance types : PyTypes :=
  {| Obj := obj; Exn := string; World := env |}.

Definition answer (c : Call) (w : env) : env * (string + obj) :=
  match c with
  | module_context (OModule _) => (w, inr OContext)
  | context_enter OContext => (w, inr OContext)
  | context_exit _ _ => (w, inr ONone)
  | logging_debug fmt _ =>
      (mkEnv (ir w) (managers w) (log w ++ [fmt]) (debugging w), inr ONone)
  | logging_debug_enabled => (w, inr (OBool (debugging w)))
  | get_refjit => (w, inr ORefjit)
  | get_runtime_libs => (w, inr OLibs)
  | PassManager_parse pipeline =>
      if String.eqb pipeline "" then (w, inl "ValueError: empty pipeline")
      else (mkEnv (ir w) (managers w ++ [[pipeline]]) (log w)
              (debugging w),
            inr (OPassManager (length (managers w))))
  | PassManager_new =>
      (mkEnv (ir w) (managers w ++ [[]]) (log w) (debugging w),
       inr (OPassManager (length (managers w))))
  | build_backend_compilation_pipeline ORefjit (OPassManager i) =>
      match managers w !! i with
      | Some passes =>
          (mkEnv (ir w) (<[i := passes ++ ["refback-lowering"]]>
                             (managers w)) (log w) (debugging w),
           inr ONone)
      | None => (w, inl "RuntimeError: no such pass manager")
      end
  | PassManager_run (OPassManager i) (OModule name) =>
      match managers w !! i with
      | Some passes =>
          if String.eqb name "invalid"
          then (w, inl ("RuntimeError: failure while executing pass"
                        +:+ " pipeline"))
          else (mkEnv (ir w ++ passes) (managers w) (log w) (debugging w),
                inr ONone)
      | None => (w, inl "RuntimeError: no such pass manager")
      end
  | refjit_JITModule ORefjit => (w, inr OJITModuleClass)
  | from_compiled_module OJITModuleClass (OModule _) OLibs =>
      (w, inr (OJit (ir w)))
  | JitModuleInvoker_init jit => (w, inr (OInvoker jit))
  | JitModuleInvoker_getitem (OInvoker _) name => (w, inr (OFunction name))
  | Tensor_numpy (OTensor n) => (w, inr (ONdarray n))
  | apply_function (OFunction _) args => (w, inr (OInt (length args)))
  | _ => (w, inl "TypeError")
  end.

#[export] Instance externals : Externals := {|
  ext := answer;
  truthy := fun o =>
    match o with OBool b => b | ONone | OInt 0 => false | _ => true end;
  isinstance_Tensor := fun o =>
    match o with OTensor _ => true | _ => false end;
  AttributeError := fun name => "AttributeError: " +:+ name;
|}.

(** A fresh world, and a backend instance as [__init__] leaves it. *)
Definition w0 : env := mkEnv [] [] [] false.

Definition backend (debug : bool) : gmap string obj :=
  <["_debug" := OBool debug]> (<["_refjit" := ORefjit]> ∅).

Definition s0 (debug : bool) : State := mkState w0 [] (backend debug).

(** The state before [__init__] ran, and the one it leaves. *)
Definition s_fresh : State := mkState w0 [] ∅.

Definition s_init : State :=
  mkState w0
    [(get_refjit, inr ORefjit); (logging_debug_enabled, inr (OBool false))]
    (backend false).

Definition m0 : obj := OModule "forward".

(** What the simulated collaborators return during [compile m0]. *)
Definition compile_answers (first_pm : nat) : CompileAnswers := {|
  a_context := OContext;
  a_entered := OContext;
  a_log_initial := ONone;
  a_log_running := ONone;
  a_frontend_pm := OPassManager first_pm;
  a_frontend_run := ONone;
  a_log_tcf := ONone;
  a_backend_pm := OPassManager (S first_pm);
  a_build := ONone;
  a_backend_run := ONone;
  a_log_backend := ONone;
  a_exit := ONone;
  a_JITModule := OJITModuleClass;
  a_libs := OLibs;
|}.

Definition frontend : string := String.concat "," TORCH_TO_TCF_PASSES.

Definition lowering : string :=
  String.concat "," OBJECT_GRAPH_LOWERING_PASSES.

(** The module once [compile] is through with it, and the artifact. *)
Definition compiled_ir : list string := [frontend; "refback-lowering"].

Definition jit0 : obj := OJit compiled_ir.

(** The world as [compile m0] leaves it. *)
Definition w_compiled (debug : bool) : env :=
  mkEnv compiled_ir [[frontend]; ["refback-lowering"]]
    (if debug
     then ["Initial PyTorch IR:" +:+ nl +:+ "{}";
           "Running Torch->TCF pipeline '{}'";
           "TCF IR:" +:+ nl +:+ "{}";
           "Backend IR:" +:+ nl +:+ "{}"]
     else [])
    false.

(** The world as the lowering block of [compile_object_graph m0] leaves
    it. *)
Definition w_lowered (debug : bool) : env :=
  mkEnv [lowering] [[lowering]]
    (if debug
     then ["Initial PyTorch object graph IR:" +:+ nl +:+ "{}";
           "Running Torch object graph lowering pipeline '{}'"]
     else [])
    false.

(** A module on which every pipeline fails, and the failure. *)
Definition m_invalid : obj := OModule "invalid".

Definition pipeline_failure : string :=
  "RuntimeError: failure while executing pass pipeline".

(** Everything in the world but the log. *)
Definition core (w : env) : list string * list (list string) * bool :=
  (ir w, managers w, debugging w).

Definition lowering_answers : LoweringAnswers := {|
  l_context := OContext;
  l_entered := OContext;
  l_log_initial := ONone;
  l_log_running := ONone;
  l_pm := OPassManager 0;
  l_run := ONone;
  l_exit := ONone;
|}.
End Sim.

(** The same environment, except that the tensor 0 requires grad and
    refuses to be converted. *)
Module SimGrad.
Import Sim.

Definition requires_grad : string :=
  "RuntimeError: Can't call numpy() on Tensor that requires grad.".

Definition answer (c : Call) (w : env) : env * (string + obj) :=
  match c with
  | Tensor_numpy (OTensor 0) => (w, inl requires_grad)
  | _ => Sim.answer c w
  end.

Definition externals : Externals := {|
  ext := answer;
  truthy := @truthy _ Sim.externals;
  isinstance_Tensor := @isinstance_Tensor _ Sim.externals;
  AttributeError := @AttributeError _ Sim.externals;
|}.
End SimGrad.

(** The same environment, except that a pass manager holding no pass
    refuses to run, so that every run that returns has run a pass. *)
Module SimStrict.
Import Sim.

Definition nothing_to_run : string := "RuntimeError: no pass to run".

Definition answer (c : Call) (w : env) : env * (string + obj) :=
  match c with
  | PassManager_run (OPassManager i) (OModule _) =>
      match managers w !! i with
      | Some [] => (w, inl nothing_to_run)
      | _ => Sim.answer c w
      end
  | _ => Sim.answer c w
  end.

Definition externals : Externals := {|
  ext := answer;
  truthy := @truthy _ Sim.externals;
  isinstance_Tensor := @isinstance_Tensor _ Sim.externals;
  AttributeError := @AttributeError _ Sim.externals;
|}.

(** The worlds the run of the frontend pipeline and the run of the lowering
    pipeline leave, started from [w0] with debugging off. *)
Definition w_frontend : env := mkEnv [frontend] [[frontend]] [] false.

Definition w_lowering : env := mkEnv [lowering] [[lowering]] [] false.
End SimStrict.

(** ** Vocabulary for the records of whole runs *)

Section Traces.
Context {T : PyTypes} {E : Externals}.

(** From a state whose instance has the fields [a], the program [p] leaves
    the fields alone and adds to the record a list of calls that is in [R],
    however the run ends. *)
Definition emits {A : Type} (a : gmap string Obj)
    (R : list Event -> Prop) (p : M A) : Prop :=
  forall s, attrs s = a ->
    attrs (p s).1 = a
    /\ exists es, events (p s).1 = events s ++ es /\ R es.

(** From a state whose instance has the fields [a], the program [p] leaves
    the fields alone and raises no exception of its own: when it raises,
    one of the calls it made raised that exception. *)
Definition sourced {A : Type} (a : gmap string Obj) (p : M A) : Prop :=
  forall s, attrs s = a ->
    attrs (p s).1 = a
    /\ exists es, events (p s).1 = events s ++ es
         /\ forall e, (p s).2 = inl e -> exists c, (c, inl e) ∈ es.

(** A context manager was entered; a context manager was asked to exit. *)
Definition is_entering (ev : Event) : bool :=
  match ev with (context_enter _, inr _) => true | _ => false end.

Definition is_leaving (ev : Event) : bool :=
  match ev with (context_exit _ _, _) => true | _ => false end.

Definition entered (es : list Event) : nat :=
  length (List.filter is_entering es).

Definition exited (es : list Event) : nat :=
  length (List.filter is_leaving es).

Definition is_context (c : Call) : bool :=
  match c with context_enter _ | context_exit _ _ => true | _ => false end.

(** The calls that compiling the module [m] may make: those of the source
    of [compile] and [compile_object_graph], on [m] and on the two
    pipelines of the file. *)
Definition step_of (m : Obj) (c : Call) : Prop :=
  match c with
  | module_context m' | PassManager_run _ m' | from_compiled_module _ m' _ =>
      m' = m
  | PassManager_parse pipeline =>
      pipeline = String.concat "," TORCH_TO_TCF_PASSES
      \/ pipeline = String.concat "," OBJECT_GRAPH_LOWERING_PASSES
  | context_enter _ | context_exit _ _ | logging_debug _ _
  | PassManager_new | build_backend_compilation_pipeline _ _
  | refjit_JITModule _ | get_runtime_libs => True
  | logging_debug_enabled | get_refjit | JitModuleInvoker_init _
  | JitModuleInvoker_getitem _ _ | Tensor_numpy _ | apply_function _ _ =>
      False
  end.

(** The calls that invoking [numpy_invoke] on [args] may make. *)
Definition conversion_of (numpy_invoke : Obj) (args : list Obj)
    (c : Call) : Prop :=
  match c with
  | Tensor_numpy t => t ∈ args /\ isinstance_Tensor t = true
  | apply_function f _ => f = numpy_invoke
  | _ => False
  end.
End Traces.

(** ** The stages of a compilation *)

Section Stages.
Context {T : PyTypes} {E : Externals}.

(** The calls of [compile] up to and with the run of the frontend
    pipeline, from there up to and with the run of the backend pipeline,
    and the rest; [compile_sequence] is the three in a row. *)
Definition frontend_part (debug : bool) (m : Obj) (a : CompileAnswers)
    : list Event :=
  [(module_context m, inr (a_context a));
   (context_enter (a_context a), inr (a_entered a))]
  ++ logged debug ("Initial PyTorch IR:" +:+ nl +:+ "{}") (AObj m)
       (a_log_initial a)
  ++ logged debug "Running Torch->TCF pipeline '{}'"
       (AStr (String.concat "," TORCH_TO_TCF_PASSES)) (a_log_running a)
  ++ [(PassManager_parse (String.concat "," TORCH_TO_TCF_PASSES),
       inr (a_frontend_pm a));
      (PassManager_run (a_frontend_pm a) m, inr (a_frontend_run a))].

Definition backend_part (debug : bool) (m refjit : Obj) (a : CompileAnswers)
    : list Event :=
  logged debug ("TCF IR:" +:+ nl +:+ "{}") (AObj m) (a_log_tcf a)
  ++ [(PassManager_new, inr (a_backend_pm a));
      (build_backend_compilation_pipeline refjit (a_backend_pm a),
       inr (a_build a));
      (PassManager_run (a_backend_pm a) m, inr (a_backend_run a))].

Definition handover_part (debug : bool) (m refjit : Obj)
    (a : CompileAnswers) (out : Outcome Obj) : list Event :=
  logged debug ("Backend IR:" +:+ nl +:+ "{}") (AObj m) (a_log_backend a)
  ++ [(context_exit (a_context a) None, inr (a_exit a));
      (refjit_JITModule refjit, inr (a_JITModule a));
      (get_runtime_libs, inr (a_libs a));
      (from_compiled_module (a_JITModule a) m (a_libs a), out)].

(** The calls of the lowering block of [compile_object_graph] up to and
    with the run of the lowering pipeline; the exit of the context is all
    that follows it in [lowering_sequence]. *)
Definition lowering_part (debug : bool) (m : Obj) (a : LoweringAnswers)
    : list Event :=
  [(module_context m, inr (l_context a));
   (context_enter (l_context a), inr (l_entered a))]
  ++ logged debug ("Initial PyTorch object graph IR:" +:+ nl +:+ "{}")
       (AObj m) (l_log_initial a)
  ++ logged debug "Running Torch object graph lowering pipeline '{}'"
       (AStr (String.concat "," OBJECT_GRAPH_LOWERING_PASSES))
       (l_log_running a)
  ++ [(PassManager_parse (String.concat "," OBJECT_GRAPH_LOWERING_PASSES),
       inr (l_pm a));
      (PassManager_run (l_pm a) m, inr (l_run a))].

(** [depth] says how far the module seen through [view] is lowered, and a
    run of a pass manager on [m] that returns leaves [m] lowered
    further. *)
Definition runs_lower {V : Type} (view : World -> V) (depth : V -> nat)
    (m : Obj) : Prop :=
  forall pm w w' r,
    ext (PassManager_run pm m) w = (w', inr r) ->
    depth (view w) < depth (view w').
End Stages.

(** ** Properties *)

Section Properties.
Context {T : PyTypes} {E : Externals}.

(** *** Running programs step by step *)

Lemma bind_returns {A B : Type} (p : M A) (k : A -> M B) s s' a :
  p s = (s', inr a) -> (p ≫= k) s = k a s'.
Proof. intros Hp. unfold mbind, M_bind. by rewrite Hp. Qed.

Lemma bind_raises {A B : Type} (p : M A) (k : A -> M B) s s' e :
  p s = (s', inl e) -> (p ≫= k) s = (s', inl e).
Proof. intros Hp. unfold mbind, M_bind. by rewrite Hp. Qed.

Lemma call_answered c s w' r :
  ext c (world s) = (w', r) -> call c s = (after s [(c, r)] w', r).
Proof. intros Hc. unfold call. by rewrite Hc. Qed.

Lemma after_after s es w es' w' :
  after (after s es w) es' w' = after s (es ++ es') w'.
Proof. unfold after. simpl. by rewrite <- app_assoc. Qed.

Lemma after_nothing s : after s [] (world s) = s.
Proof. destruct s. unfold after. simpl. by rewrite app_nil_r. Qed.

Lemma plays_nil_inv w w' : plays w [] w' -> w' = w.
Proof. by inversion 1. Qed.

Lemma plays_cons_inv w c r es w2 :
  plays w ((c, r) :: es) w2 ->
  exists w1, ext c w = (w1, r) /\ plays w1 es w2.
Proof. inversion 1; subst. eauto. Qed.

Lemma plays_app w es1 es2 w2 :
  plays w (es1 ++ es2) w2 <->
  exists w1, plays w es1 w1 /\ plays w1 es2 w2.
Proof.
  revert w. induction es1 as [|[c r] es1 IH]; intros w; simpl.
  - split.
    + intros Hp. exists w. split; [constructor | done].
    + intros (w1 & Hnil & Hp). by inversion Hnil; subst.
  - split.
    + intros Hp. inversion Hp as [|? ? w1 ? ? ? Hc Hrest]; subst.
      apply IH in Hrest as (w1' & H1 & H2).
      exists w1'. split; [by econstructor | done].
    + intros (w1 & Hp & H2).
      inversion Hp as [|? ? w1' ? ? ? Hc Hrest]; subst.
      econstructor; [done|]. apply IH. by exists w1.
Qed.

Lemma call_bind {B : Type} c (k : Obj -> M B) s w' v :
  ext c (world s) = (w', inr v) ->
  (call c ≫= k) s = k v (after s [(c, inr v)] w').
Proof. intros Hc. apply bind_returns. by apply call_answered. Qed.

Lemma call_last c s w' r :
  ext c (world s) = (w', r) ->
  (call c ≫= λ x, mret x) s = (after s [(c, r)] w', r).
Proof.
  intros Hc. unfold mbind, M_bind. rewrite (call_answered _ _ _ _ Hc).
  by destruct r.
Qed.

Lemma getattr_bind {B : Type} name (k : Obj -> M B) s v :
  attrs s !! name = Some v -> (getattr name ≫= k) s = k v s.
Proof. intros Hv. apply bind_returns. unfold getattr. by rewrite Hv. Qed.

Lemma debug_log_returns fmt arg s debug r w' :
  attrs s !! "_debug" = Some debug ->
  plays (world s) (logged (truthy debug) fmt arg r) w' ->
  debug_log fmt arg s = (after s (logged (truthy debug) fmt arg r) w', inr tt).
Proof.
  intros Hd Hp. unfold debug_log. rewrite (getattr_bind _ _ _ _ Hd).
  unfold logged in *. destruct (truthy debug).
  - inversion Hp as [|? ? w1 ? ? ? Hc Hnil]; subst.
    inversion Hnil; subst. by rewrite (call_bind _ _ _ _ _ Hc).
  - inversion Hp; subst. by rewrite after_nothing.
Qed.

Lemma with_returns mgr body s x w1 s2 v w3 :
  ext (context_enter mgr) (world s) = (w1, inr x) ->
  body x (after s [(context_enter mgr, inr x)] w1) = (s2, inr tt) ->
  ext (context_exit mgr None) (world s2) = (w3, inr v) ->
  with_ mgr body s = (after s2 [(context_exit mgr None, inr v)] w3, inr tt).
Proof.
  intros Henter Hbody Hexit. unfold with_.
  rewrite (call_bind _ _ _ _ _ Henter).
  erewrite bind_returns; [|unfold try; by rewrite Hbody].
  cbn beta iota. by rewrite (call_bind _ _ _ _ _ Hexit).
Qed.

(** Cut the hypothesis that the world plays a sequence into one fact per
    call. *)
Ltac answer_calls :=
  repeat match goal with
  | Hp : plays _ (_ ++ _) _ |- _ =>
      apply plays_app in Hp as (? & ? & ?)
  | Hp : plays _ (_ :: _) _ |- _ =>
      apply plays_cons_inv in Hp as (? & ? & ?)
  | Hp : plays _ [] _ |- _ => apply plays_nil_inv in Hp; subst
  end.

(** Advance the program of the goal by one statement. *)
Ltac step :=
  first
    [ erewrite call_bind by (cbn [world attrs after]; eassumption)
    | erewrite getattr_bind by (cbn [world attrs after]; eassumption)
    | erewrite (bind_returns (debug_log _ _))
        by (eapply debug_log_returns; cbn [world attrs after]; eassumption)
    | erewrite debug_log_returns by (cbn [world attrs after]; eassumption)
    | erewrite call_last by (cbn [world attrs after]; eassumption)
    | erewrite call_answered by (cbn [world attrs after]; eassumption) ].

(** Bring the record of a run to the form [after s (e1 :: e2 :: ...) w]. *)
Ltac tidy :=
  rewrite ?after_after;
  unfold compile_sequence, lowering_sequence;
  rewrite <- ?app_assoc; try reflexivity.

(** *** The pass lists *)

(** C4: the two pass lists are the ordered triple and the ordered 7-tuple
    of the source, the latter naming [func(numpy-array-to-tensor)] twice;
    the pipeline strings handed to the pass manager are their
    comma-separated concatenations. *)
Theorem pass_lists :
  OBJECT_GRAPH_LOWERING_PASSES =
    ["torch-globalize-pipeline"; "symbol-dce";
     "torch-adjust-calling-conventions"]
  /\ length OBJECT_GRAPH_LOWERING_PASSES = 3
  /\ TORCH_TO_TCF_PASSES =
    ["func(aten-recognize-kernels)"; "numpy-public-functions-to-tensor";
     "func(numpy-array-to-tensor)"; "func(torch-refine-types)";
     "numpy-refine-public-return"; "func(numpy-array-to-tensor)";
     "func(convert-aten-to-tcf)"]
  /\ length TORCH_TO_TCF_PASSES = 7
  /\ TORCH_TO_TCF_PASSES !! 2 = Some "func(numpy-array-to-tensor)"
  /\ TORCH_TO_TCF_PASSES !! 5 = Some "func(numpy-array-to-tensor)"
  /\ length (List.filter (String.eqb "func(numpy-array-to-tensor)")
               TORCH_TO_TCF_PASSES) = 2
  /\ NoDup OBJECT_GRAPH_LOWERING_PASSES
  /\ String.concat "," OBJECT_GRAPH_LOWERING_PASSES =
    "torch-globalize-pipeline,symbol-dce,torch-adjust-calling-conventions"
  /\ String.concat "," TORCH_TO_TCF_PASSES =
    "func(aten-recognize-kernels),numpy-public-functions-to-tensor,"
    +:+ "func(numpy-array-to-tensor),func(torch-refine-types),"
    +:+ "numpy-refine-public-return,func(numpy-array-to-tensor),"
    +:+ "func(convert-aten-to-tcf)".
Proof.
  repeat split; try reflexivity.
  apply NoDup_ListNoDup. repeat constructor; simpl; intuition discriminate.
Qed.

(** *** compile *)

Lemma compile_plays s m refjit debug a out w' :
  attrs s !! "_refjit" = Some refjit ->
  attrs s !! "_debug" = Some debug ->
  plays (world s) (compile_sequence (truthy debug) m refjit a out) w' ->
  compile m s =
    (after s (compile_sequence (truthy debug) m refjit a out) w', out).
Proof.
  intros Hrefjit Hdebug Hplays.
  unfold compile_sequence in Hplays. answer_calls.
  unfold compile. step.
  erewrite (bind_returns (with_ _ _)); cycle 1.
  { eapply with_returns; [cbn [world after]; eassumption|..].
    - repeat step. reflexivity.
    - cbn [world after]. eassumption. }
  repeat step. tidy.
Qed.

Lemma compile_object_graph_plays s m debug a w1 :
  attrs s !! "_debug" = Some debug ->
  plays (world s) (lowering_sequence (truthy debug) m a) w1 ->
  compile_object_graph m s =
    compile m (after s (lowering_sequence (truthy debug) m a) w1).
Proof.
  intros Hdebug Hplays.
  unfold lowering_sequence in Hplays. answer_calls.
  unfold compile_object_graph. step.
  erewrite (bind_returns (with_ _ _)); cycle 1.
  { eapply with_returns; [cbn [world after]; eassumption|..].
    - repeat step. reflexivity.
    - cbn [world after]. eassumption. }
  f_equal. tidy.
Qed.

(** C1: for every module, when the collaborators answer, [compile] makes
    exactly the calls of [compile_sequence], in that order: the pipeline
    parsed from the names of TORCH_TO_TCF_PASSES joined by commas is run on
    the module, then a second pass manager, built apart and filled by the
    refjit object's [build_backend_compilation_pipeline], is run on it,
    and last the module goes with the runtime libraries to
    [JITModule.from_compiled_module], whose outcome is the outcome of
    [compile]. *)
Theorem compile_runs_frontend_backend_jit
    (s : State) (m refjit debug : Obj) (a : CompileAnswers)
    (out : Outcome Obj) (w' : World) :
  attrs s !! "_refjit" = Some refjit ->
  attrs s !! "_debug" = Some debug ->
  plays (world s) (compile_sequence (truthy debug) m refjit a out) w' ->
  compile m s =
    (after s (compile_sequence (truthy debug) m refjit a out) w', out).
Proof. apply compile_plays. Qed.

(** *** compile_object_graph *)

(** C3: for every module, [compile_object_graph] runs on it the pipeline
    parsed from the names of OBJECT_GRAPH_LOWERING_PASSES joined by commas
    and then returns what [compile] returns on the same module, in the
    world the lowering left. *)
Theorem compile_object_graph_lowers_then_compiles
    (s : State) (m debug : Obj) (a : LoweringAnswers) (w1 : World) :
  attrs s !! "_debug" = Some debug ->
  plays (world s) (lowering_sequence (truthy debug) m a) w1 ->
  compile_object_graph m s =
    compile m (after s (lowering_sequence (truthy debug) m a) w1).
Proof. apply compile_object_graph_plays. Qed.

(** *** load *)

(** C7: [load] makes one call, the construction of the invoker from the
    very [jit_module] it was given, and returns that invoker; it runs no
    pipeline and compiles nothing. *)
Theorem load_forwards_jit_module (s : State) (jit_module : Obj) :
  let '(w', r) := ext (JitModuleInvoker_init jit_module) (world s) in
  load jit_module s = (after s [(JitModuleInvoker_init jit_module, r)] w', r)
  /\ count is_run [(JitModuleInvoker_init jit_module, r)] = 0
  /\ count is_from_compiled_module
       [(JitModuleInvoker_init jit_module, r)] = 0.
Proof.
  destruct (ext _ _) as [w' r] eqn:Hc.
  split; [|done]. unfold load. by apply call_answered.
Qed.

(** *** How many calls compile makes *)

(** C6, as amended: a successful [compile] with debugging off makes eleven
    calls in all; seven of them are invocations, two of these run a
    pipeline and one is [from_compiled_module]. *)
Theorem compile_call_count
    (s : State) (m refjit debug : Obj) (a : CompileAnswers)
    (out : Outcome Obj) (w' : World) :
  attrs s !! "_refjit" = Some refjit ->
  attrs s !! "_debug" = Some debug ->
  truthy debug = false ->
  plays (world s) (compile_sequence false m refjit a out) w' ->
  exists es,
    compile m s = (after s es w', out)
    /\ length es = 11
    /\ count is_invocation es = 7
    /\ count is_run es = 2
    /\ count is_from_compiled_module es = 1.
Proof.
  intros Hrefjit Hdebug Htruthy Hplays.
  exists (compile_sequence false m refjit a out).
  split; [|done].
  pose proof (compile_plays s m refjit debug a out w' Hrefjit Hdebug)
    as Hrun.
  rewrite Htruthy in Hrun. by apply Hrun.
Qed.

(** *** The invoker *)

Lemma for_each_converts args args' t w2 :
  adapted args args' ->
  plays (world t) (conversions args args') w2 ->
  for_each
    (fun arg => if isinstance_Tensor arg then call (Tensor_numpy arg)
                else mret arg) args t =
    (after t (conversions args args') w2, inr args').
Proof.
  intros Had. revert t.
  induction Had as [|arg arg' args args' Hsame Had IH]; intros t Hplays.
  - apply plays_nil_inv in Hplays as ->. simpl. by rewrite after_nothing.
  - unfold conversions in Hplays. cbn [zip zip_with flat_map fst snd] in Hplays.
    apply plays_app in Hplays as (w1 & Harg & Hrest).
    cbn [for_each]. unfold conversions. cbn [zip zip_with flat_map fst snd].
    fold (conversions args args') in *.
    destruct (isinstance_Tensor arg) eqn:Htensor.
    + apply plays_cons_inv in Harg as (w1' & Hc & Hnil).
      apply plays_nil_inv in Hnil as ->.
      rewrite (call_bind _ _ _ _ _ Hc).
      erewrite bind_returns by (apply IH; cbn [world after]; eassumption).
      by rewrite after_after.
    + apply plays_nil_inv in Harg as ->. rewrite (Hsame eq_refl).
      erewrite (bind_returns (mret arg)) by reflexivity.
      erewrite bind_returns by (apply IH; eassumption).
      reflexivity.
Qed.

(** C2: for every function name, [__getitem__] returns an invoker that,
    for every tuple of arguments, asks each tensor among them for its
    numpy array, from left to right, keeps every other argument as it is,
    keeps their number and order, calls the invoker obtained from the
    parent class's [__getitem__] with the converted tuple and returns
    exactly the outcome of that call. *)
Theorem invoker_adapts_tensors
    (self : Obj) (function_name : string) (s : State) (w1 : World)
    (numpy_invoke : Obj) :
  ext (JitModuleInvoker_getitem self function_name) (world s) =
    (w1, inr numpy_invoke) ->
  exists inv,
    TorchJitModuleInvoker_getitem self function_name s =
      (after s [(JitModuleInvoker_getitem self function_name,
                 inr numpy_invoke)] w1, inr inv)
    /\ forall (t : State) (args args' : list Obj) (w2 w3 : World)
         (out : Outcome Obj),
         adapted args args' ->
         plays (world t) (conversions args args') w2 ->
         ext (apply_function numpy_invoke args') w2 = (w3, out) ->
         length args' = length args
         /\ inv args t =
              (after t (conversions args args'
                        ++ [(apply_function numpy_invoke args', out)]) w3,
               out).
Proof.
  intros Hget. exists (invoke numpy_invoke). split.
  - unfold TorchJitModuleInvoker_getitem. by rewrite (call_bind _ _ _ _ _ Hget).
  - intros t args args' w2 w3 out Had Hplays Happly. split.
    + symmetry. eapply Forall2_length, Had.
    + unfold invoke.
      erewrite bind_returns by (by apply for_each_converts).
      erewrite call_answered by (cbn [world after]; eassumption).
      by rewrite after_after.
Qed.

(** *** No recovery from failures *)

Lemma settled_outcome {A B : Type} (r : Outcome A) (r' : Outcome B) es :
  (forall e, r = inl e -> r' = inl e) -> settled r es -> settled r' es.
Proof.
  intros Hr. induction es as [|[c [e|v]] es IH]; simpl; [done| |done].
  intros [-> Hexits]. split; [by apply Hr | done].
Qed.

Lemma settled_app {A B : Type} (a : A) (r : Outcome B) es1 es2 :
  settled (inr a) es1 -> settled r es2 -> settled r (es1 ++ es2).
Proof.
  intros H1 H2. induction es1 as [|[c [e|v]] es1 IH]; simpl in *; [done| |auto].
  by destruct H1.
Qed.

Lemma settled_exit {A : Type} (e : Exn) es mgr v :
  settled (A:=A) (inl e) es ->
  settled (A:=A) (inl e) (es ++ [(context_exit mgr (Some e), inr v)]).
Proof.
  induction es as [|[c [e'|v']] es IH]; simpl; [done| |done].
  intros [[= <-] Hexits]. split; [done|].
  apply Forall_app. split; [done|].
  apply Forall_singleton. by exists mgr, v.
Qed.

Lemma settled_split {A : Type} (r : Outcome A) es1 c e es2 :
  settled r (es1 ++ (c, inl e) :: es2) ->
  r = inl e /\ Forall (exit_carrying e) es2.
Proof.
  induction es1 as [|[c' [e'|v']] es1 IH]; simpl; [done| |done].
  intros [_ Hexits]. apply Forall_app in Hexits as [_ Hexits].
  apply Forall_cons in Hexits as [(mgr & v & [=]) _].
Qed.

Lemma fail_fast_ret {A : Type} (a : A) : fail_fast (mret a).
Proof.
  intros s s' r [= <- <-]. exists []. by rewrite app_nil_r.
Qed.

Lemma fail_fast_raise {A : Type} (e : Exn) : fail_fast (raise (A:=A) e).
Proof.
  intros s s' r [= <- <-]. exists []. by rewrite app_nil_r.
Qed.

Lemma fail_fast_call c : fail_fast (call c).
Proof.
  intros s s' r. unfold call. destruct (ext c (world s)) as [w' r'].
  intros [= <- <-]. exists [(c, r')]. split; [done|].
  by destruct r'.
Qed.

Lemma fail_fast_getattr name : fail_fast (getattr name).
Proof.
  intros s s' r. unfold getattr. destruct (attrs s !! name);
    intros [= <- <-]; exists []; by rewrite app_nil_r.
Qed.

Lemma fail_fast_bind {A B : Type} (p : M A) (k : A -> M B) :
  fail_fast p -> (forall a, fail_fast (k a)) -> fail_fast (p ≫= k).
Proof.
  intros Hp Hk s s' r. unfold mbind, M_bind.
  destruct (p s) as [s1 [e|a]] eqn:Hps.
  - intros [= <- <-]. destruct (Hp _ _ _ Hps) as (es & Hes & Hset).
    exists es. split; [done|].
    eapply settled_outcome; [|exact Hset]. by intros ? [= ->].
  - intros Hks. destruct (Hp _ _ _ Hps) as (es1 & Hes1 & Hset1).
    destruct (Hk _ _ _ _ Hks) as (es2 & Hes2 & Hset2).
    exists (es1 ++ es2). split.
    + by rewrite Hes2, Hes1, app_assoc.
    + by eapply settled_app.
Qed.

Lemma fail_fast_debug_log fmt arg : fail_fast (debug_log fmt arg).
Proof.
  apply fail_fast_bind; [apply fail_fast_getattr|]. intros debug.
  destruct (truthy debug); [|apply fail_fast_ret].
  apply fail_fast_bind; [apply fail_fast_call|]. intros _.
  apply fail_fast_ret.
Qed.

Lemma fail_fast_with mgr body :
  exit_passes_exceptions ->
  (forall x, fail_fast (body x)) -> fail_fast (with_ mgr body).
Proof.
  intros Hexit Hbody. apply fail_fast_bind; [apply fail_fast_call|].
  intros x s s' r. unfold mbind, M_bind, try.
  destruct (body x s) as [s1 [e|[]]] eqn:Hb;
    destruct (Hbody _ _ _ _ Hb) as (es & Hes & Hset).
  - destruct (Hexit mgr e (world s1)) as (w' & v & Hc & Hv).
    rewrite (call_answered _ _ _ _ Hc), Hv. intros [= <- <-].
    exists (es ++ [(context_exit mgr (Some e), inr v)]). split.
    + simpl. by rewrite Hes, app_assoc.
    + by apply settled_exit.
  - intros Hrest.
    assert (fail_fast (call (context_exit mgr None) ;; mret tt)) as Hff.
    { apply fail_fast_bind; [apply fail_fast_call|].
      intros _. apply fail_fast_ret. }
    destruct (Hff _ _ _ Hrest) as (es2 & Hes2 & Hset2).
    exists (es ++ es2). split.
    + by rewrite Hes2, Hes, app_assoc.
    + by eapply settled_app.
Qed.

Create HintDb fail_fast.
#[local] Hint Resolve fail_fast_ret fail_fast_raise fail_fast_call
  fail_fast_getattr fail_fast_debug_log : fail_fast.

Ltac fail_fast :=
  repeat first
    [ progress auto with fail_fast
    | apply fail_fast_with; [assumption|intros ?]
    | apply fail_fast_bind; [|intros ?] ].

Lemma fail_fast_compile m : exit_passes_exceptions -> fail_fast (compile m).
Proof. intros Hexit. unfold compile. fail_fast. Qed.

Lemma fail_fast_compile_object_graph m :
  exit_passes_exceptions -> fail_fast (compile_object_graph m).
Proof.
  intros Hexit. unfold compile_object_graph.
  apply fail_fast_bind; [apply fail_fast_call|intros mgr].
  apply fail_fast_bind; [fail_fast|intros _].
  by apply fail_fast_compile.
Qed.

(** C5: neither method recovers from a failure.  Where leaving a context
    with an exception pending lets the exception through, as a context
    manager that handles nothing does: for every module and every call
    that raises during [compile] or [compile_object_graph], a pipeline
    parse or run in particular, the method raises that very exception, and
    after the failing call nothing is called but the exit of the enclosing
    context. *)
Theorem failures_propagate
    (m : Obj) (s s' : State) (r : Outcome Obj)
    (es1 es2 : list Event) (c : Call) (e : Exn) :
  exit_passes_exceptions ->
  compile m s = (s', r) \/ compile_object_graph m s = (s', r) ->
  events s' = events s ++ es1 ++ (c, inl e) :: es2 ->
  r = inl e /\ Forall (exit_carrying e) es2.
Proof.
  intros Hexit Hrun Hevents.
  assert (exists es, events s' = events s ++ es /\ settled r es)
    as (es & Hes & Hset).
  { destruct Hrun as [Hrun|Hrun].
    - by eapply fail_fast_compile.
    - by eapply fail_fast_compile_object_graph. }
  rewrite Hes in Hevents. apply app_inv_head in Hevents as ->.
  by eapply settled_split.
Qed.

(** *** The fields of the backend *)

Lemma keeps_attrs_ret {A : Type} (a : A) : keeps_attrs (mret a).
Proof. done. Qed.

Lemma keeps_attrs_raise {A : Type} (e : Exn) : keeps_attrs (raise (A:=A) e).
Proof. done. Qed.

Lemma keeps_attrs_call c : keeps_attrs (call c).
Proof. intros s. unfold call. by destruct (ext c (world s)). Qed.

Lemma keeps_attrs_getattr name : keeps_attrs (getattr name).
Proof. intros s. unfold getattr. by destruct (attrs s !! name). Qed.

Lemma keeps_attrs_bind {A B : Type} (p : M A) (k : A -> M B) :
  keeps_attrs p -> (forall a, keeps_attrs (k a)) -> keeps_attrs (p ≫= k).
Proof.
  intros Hp Hk s. unfold mbind, M_bind. specialize (Hp s).
  destruct (p s) as [s1 [e|a]]; [done|].
  simpl in Hp. by rewrite Hk.
Qed.

Lemma keeps_attrs_try {A : Type} (p : M A) :
  keeps_attrs p -> keeps_attrs (try p).
Proof. intros Hp s. unfold try. specialize (Hp s). by destruct (p s). Qed.

Lemma keeps_attrs_debug_log fmt arg : keeps_attrs (debug_log fmt arg).
Proof.
  apply keeps_attrs_bind; [apply keeps_attrs_getattr|]. intros debug.
  destruct (truthy debug); [|apply keeps_attrs_ret].
  apply keeps_attrs_bind; [apply keeps_attrs_call|]. intros _.
  apply keeps_attrs_ret.
Qed.

Lemma keeps_attrs_with mgr body :
  (forall x, keeps_attrs (body x)) -> keeps_attrs (with_ mgr body).
Proof.
  intros Hbody. apply keeps_attrs_bind; [apply keeps_attrs_call|].
  intros x. apply keeps_attrs_bind; [by apply keeps_attrs_try|].
  intros [e|[]].
  - apply keeps_attrs_bind; [apply keeps_attrs_call|]. intros v.
    destruct (truthy v); [apply keeps_attrs_ret|apply keeps_attrs_raise].
  - apply keeps_attrs_bind; [apply keeps_attrs_call|]. intros _.
    apply keeps_attrs_ret.
Qed.

Create HintDb keeps_attrs.
#[local] Hint Resolve keeps_attrs_ret keeps_attrs_raise keeps_attrs_call
  keeps_attrs_getattr keeps_attrs_debug_log : keeps_attrs.

Ltac keeps_attrs :=
  repeat first
    [ progress auto with keeps_attrs
    | apply keeps_attrs_with; intros ?
    | apply keeps_attrs_bind; [|intros ?] ].

Lemma keeps_attrs_compile m : keeps_attrs (compile m).
Proof. unfold compile. keeps_attrs. Qed.

Lemma keeps_attrs_compile_object_graph m :
  keeps_attrs (compile_object_graph m).
Proof.
  unfold compile_object_graph.
  apply keeps_attrs_bind; [apply keeps_attrs_call|intros mgr].
  apply keeps_attrs_bind; [keeps_attrs|intros _].
  apply keeps_attrs_compile.
Qed.

Lemma keeps_attrs_perform mc s : attrs (perform mc s) = attrs s.
Proof.
  destruct mc; simpl.
  - apply keeps_attrs_compile.
  - apply keeps_attrs_compile_object_graph.
  - apply keeps_attrs_call.
Qed.

(** C8: the fields of a backend are the two that [__init__] assigns, from
    what [get_refjit] and [logging.debug_enabled] returned, and whatever
    sequence of calls to [compile], [compile_object_graph] and [load]
    follows, returning or raising, leaves them as [__init__] set them. *)
Theorem backend_fields_are_fixed (s0 s : State) :
  CompilerBackend_init s0 = (s, inr tt) ->
  (exists w1 refjit debug,
     ext get_refjit (world s0) = (w1, inr refjit)
     /\ ext logging_debug_enabled w1 = (world s, inr debug)
     /\ attrs s = <["_debug" := debug]> (<["_refjit" := refjit]> (attrs s0)))
  /\ forall mcs : list MethodCall, attrs (perform_all mcs s) = attrs s.
Proof.
  intros Hinit. split.
  - unfold CompilerBackend_init, mbind, M_bind, call, setattr in Hinit.
    destruct (ext get_refjit (world s0)) as [w1 [e|refjit]] eqn:Hr;
      [done|]. cbn [world events attrs] in Hinit.
    destruct (ext logging_debug_enabled w1) as [w2 [e|debug]] eqn:Hd;
      [done|]. injection Hinit as <-. by exists w1, refjit, debug.
  - intros mcs. unfold perform_all.
    induction mcs as [|mc mcs IH] using rev_ind; [done|].
    by rewrite foldl_app; simpl; rewrite keeps_attrs_perform.
Qed.

(** *** The module is transformed in place *)

Section InPlace.
Context {V : Type} (view : World -> V) (depth : V -> nat) (m : Obj).
Hypothesis Hview : only_runs_change view.
Hypothesis Hlower : runs_lower view depth m.

Lemma call_keeps_view c w w1 r :
  ext c w = (w1, r) -> is_run c = false -> view w1 = view w.
Proof. intros Hc Hnorun. rewrite <- (Hview c w Hnorun). by rewrite Hc. Qed.

Lemma logged_keeps_view debug fmt arg r w w1 :
  plays w (logged debug fmt arg r) w1 -> view w1 = view w.
Proof.
  unfold logged. destruct debug; intros Hp.
  - apply plays_cons_inv in Hp as (w2 & Hc & Hnil).
    apply plays_nil_inv in Hnil as ->. by eapply call_keeps_view.
  - by apply plays_nil_inv in Hp as ->.
Qed.

(** Gather what every answered call did to the view of the module. *)
Ltac views :=
  repeat match goal with
  | Hp : plays _ (logged _ _ _ _) _ |- _ =>
      apply logged_keeps_view in Hp
  | Hc : ext (PassManager_run _ m) _ = (_, inr _) |- _ =>
      apply Hlower in Hc
  | Hc : ext _ _ = _ |- _ =>
      apply call_keeps_view in Hc; [|reflexivity]
  end.

(** The same, counted in depth. *)
Ltac depths :=
  views;
  repeat match goal with
  | Heq : view _ = view _ |- _ => apply (f_equal depth) in Heq
  end;
  lia.

Lemma frontend_part_lowers debug a w wf :
  plays w (frontend_part debug m a) wf -> depth (view w) < depth (view wf).
Proof.
  intros Hplays. unfold frontend_part in Hplays. answer_calls. depths.
Qed.

Lemma backend_part_lowers debug refjit a w wb :
  plays w (backend_part debug m refjit a) wb ->
  depth (view w) < depth (view wb).
Proof.
  intros Hplays. unfold backend_part in Hplays. answer_calls. depths.
Qed.

Lemma lowering_part_lowers debug la w wl :
  plays w (lowering_part debug m la) wl -> depth (view w) < depth (view wl).
Proof.
  intros Hplays. unfold lowering_part in Hplays. answer_calls. depths.
Qed.

Lemma handover_part_keeps_view debug refjit a out w w' :
  plays w (handover_part debug m refjit a out) w' -> view w' = view w.
Proof.
  intros Hplays. unfold handover_part in Hplays. answer_calls.
  views. congruence.
Qed.

Lemma compile_sequence_parts debug refjit a out :
  compile_sequence debug m refjit a out =
    frontend_part debug m a ++ backend_part debug m refjit a
    ++ handover_part debug m refjit a out.
Proof.
  unfold compile_sequence, frontend_part, backend_part, handover_part.
  by rewrite <- !app_assoc.
Qed.

Lemma lowering_sequence_parts debug la :
  lowering_sequence debug m la =
    lowering_part debug m la
    ++ [(context_exit (l_context la) None, inr (l_exit la))].
Proof.
  unfold lowering_sequence, lowering_part. by rewrite <- !app_assoc.
Qed.

Lemma compile_in_place s refjit debug a out wf wb w' :
  attrs s !! "_refjit" = Some refjit ->
  attrs s !! "_debug" = Some debug ->
  plays (world s) (frontend_part (truthy debug) m a) wf ->
  plays wf (backend_part (truthy debug) m refjit a) wb ->
  plays wb (handover_part (truthy debug) m refjit a out) w' ->
  compile m s =
    (after s (compile_sequence (truthy debug) m refjit a out) w', out)
  /\ view w' = view wb
  /\ depth (view (world s)) < depth (view wf)
  /\ depth (view wf) < depth (view wb).
Proof.
  intros Hrefjit Hdebug Hfront Hback Hhand. split.
  - apply compile_plays; [done..|]. rewrite compile_sequence_parts.
    apply plays_app. exists wf. split; [done|].
    apply plays_app. by exists wb.
  - split; [by eapply handover_part_keeps_view|].
    split; [by eapply frontend_part_lowers|by eapply backend_part_lowers].
Qed.
End InPlace.


(** *** The debug flag *)

Section Debug.
Context {K : Type} (core : World -> K).
Hypothesis Hlogging : logging_is_benign core.
Hypothesis Hcore : core_determines core.

Lemma nolog_snoc es c r :
  nolog (es ++ [(c, r)]) =
    nolog es ++ (if is_logging c then [] else [(c, r)]).
Proof.
  unfold nolog. rewrite List.filter_app. simpl. by destruct (is_logging c).
Qed.

Lemma alike_ret {A : Type} (a : A) : alike core (mret a) (mret a).
Proof. by intros s1 s2 Hagree. Qed.

Lemma alike_raise {A : Type} (e : Exn) :
  alike core (raise (A:=A) e) (raise e).
Proof. by intros s1 s2 Hagree. Qed.

Lemma alike_bind {A B : Type} (p q : M A) (k l : A -> M B) :
  alike core p q -> (forall a, alike core (k a) (l a)) ->
  alike core (p ≫= k) (q ≫= l).
Proof.
  intros Hpq Hkl s1 s2 Hagree. unfold mbind, M_bind.
  destruct (Hpq s1 s2 Hagree) as [Hagree' Hout].
  destruct (p s1) as [s1' [e1|a1]], (q s2) as [s2' [e2|a2]];
    simpl in Hout; try discriminate Hout; injection Hout as ->.
  - done.
  - by apply Hkl.
Qed.

Lemma alike_call c : is_logging c = false -> alike core (call c) (call c).
Proof.
  intros Hc s1 s2 (Hw & Hes & Hrefjit & Hd1 & Hd2). unfold call.
  destruct (Hcore c (world s1) (world s2) Hc Hw) as [Hout Hw'].
  destruct (ext c (world s1)) as [w1 r1], (ext c (world s2)) as [w2 r2].
  simpl in *. subst r2. repeat split; try done.
  simpl. by rewrite !nolog_snoc, Hes, Hc.
Qed.

Lemma alike_getattr_refjit :
  alike core (getattr "_refjit") (getattr "_refjit").
Proof.
  intros s1 s2 Hagree. unfold getattr.
  pose proof Hagree as (_ & _ & Hattrs & _). rewrite Hattrs.
  by destruct (attrs s2 !! "_refjit").
Qed.

(** The one place where the two runs may part: one logs, the other does
    not. *)
Lemma alike_debug_log fmt arg :
  alike core (debug_log fmt arg) (debug_log fmt arg).
Proof.
  assert (forall s, is_Some (attrs s !! "_debug") ->
            exists s', debug_log fmt arg s = (s', inr tt)
              /\ core (world s') = core (world s)
              /\ nolog (events s') = nolog (events s)
              /\ attrs s' = attrs s) as Hrun.
  { intros s [debug Hd]. unfold debug_log.
    rewrite (getattr_bind _ _ _ _ Hd). destruct (truthy debug).
    - destruct (Hlogging fmt arg (world s)) as (w' & v & Hc & Hw).
      rewrite (call_bind _ _ _ _ _ Hc). eexists. split; [done|].
      repeat split; [done|].
      simpl. rewrite nolog_snoc. simpl. by rewrite app_nil_r.
    - by exists s. }
  intros s1 s2 (Hw & Hes & Hattrs & Hd1 & Hd2).
  destruct (Hrun s1 Hd1) as (s1' & -> & Hw1 & Hes1 & Ha1).
  destruct (Hrun s2 Hd2) as (s2' & -> & Hw2 & Hes2 & Ha2).
  simpl. unfold agree. rewrite Hw1, Hw2, Hes1, Hes2, Ha1, Ha2. done.
Qed.

Lemma alike_try {A : Type} (p q : M A) :
  alike core p q -> alike core (try p) (try q).
Proof.
  intros Hpq s1 s2 Hagree. unfold try.
  destruct (Hpq s1 s2 Hagree) as [Hagree' Hout].
  destruct (p s1), (q s2). simpl in *. by subst.
Qed.

Lemma alike_with mgr body1 body2 :
  (forall x, alike core (body1 x) (body2 x)) ->
  alike core (with_ mgr body1) (with_ mgr body2).
Proof.
  intros Hbody. apply alike_bind; [by apply alike_call|]. intros x.
  apply alike_bind; [by apply alike_try|]. intros [e|[]].
  - apply alike_bind; [by apply alike_call|]. intros v.
    destruct (truthy v); [apply alike_ret|apply alike_raise].
  - apply alike_bind; [by apply alike_call|]. intros _. apply alike_ret.
Qed.

Ltac alike :=
  repeat first
    [ apply alike_ret
    | apply alike_debug_log
    | apply alike_getattr_refjit
    | apply alike_call; reflexivity
    | apply alike_with; intros ?
    | apply alike_bind; [|intros ?] ].

Lemma alike_compile m : alike core (compile m) (compile m).
Proof. unfold compile. alike. Qed.

Lemma alike_compile_object_graph m :
  alike core (compile_object_graph m) (compile_object_graph m).
Proof.
  unfold compile_object_graph.
  apply alike_bind; [by apply alike_call|intros mgr].
  apply alike_bind; [alike|intros _].
  apply alike_compile.
Qed.
End Debug.

(** C10: the debug flag changes nothing but the log.  Let [core] be the
    part of the world that is no log, one that [logging.debug] leaves
    alone and beyond which no other call looks.  For every module, two
    runs of [compile], or of [compile_object_graph], on backends whose
    [_debug] fields hold whatever two values and from worlds with the same
    core, end with the same outcome, the same [jit_module] when they
    return, with the same core, the transformed module included, and with
    the same calls made apart from those to [logging.debug]. *)
Theorem debug_flag_changes_only_the_log
    {K : Type} (core : World -> K) (m : Obj) (s1 s2 : State)
    (debug1 debug2 : Obj) :
  logging_is_benign core ->
  core_determines core ->
  attrs s1 !! "_debug" = Some debug1 ->
  attrs s2 !! "_debug" = Some debug2 ->
  attrs s1 !! "_refjit" = attrs s2 !! "_refjit" ->
  core (world s1) = core (world s2) ->
  nolog (events s1) = nolog (events s2) ->
  ((compile m s1).2 = (compile m s2).2
   /\ core (world (compile m s1).1) = core (world (compile m s2).1)
   /\ nolog (events (compile m s1).1) = nolog (events (compile m s2).1))
  /\ ((compile_object_graph m s1).2 = (compile_object_graph m s2).2
      /\ core (world (compile_object_graph m s1).1) =
           core (world (compile_object_graph m s2).1)
      /\ nolog (events (compile_object_graph m s1).1) =
           nolog (events (compile_object_graph m s2).1)).
Proof.
  intros Hlogging Hcore Hd1 Hd2 Hrefjit Hw Hes.
  assert (agree core s1 s2) as Hagree by (by repeat split; eauto).
  split.
  - destruct (alike_compile core Hlogging Hcore m s1 s2 Hagree)
      as [(? & ? & _) ?]. done.
  - destruct (alike_compile_object_graph core Hlogging Hcore m s1 s2 Hagree)
      as [(? & ? & _) ?]. done.
Qed.
End Properties.

(** ** Properties of whole runs *)

Section Runs.
Context {T : PyTypes} {E : Externals}.

(** *** What a run may add to the record *)

Section Emits.
Context (a : gmap string Obj) (R : list Event -> Prop).
Hypothesis R_nil : R [].
Hypothesis R_app : forall es1 es2, R es1 -> R es2 -> R (es1 ++ es2).

Lemma emits_ret {A : Type} (x : A) : emits a R (mret x).
Proof.
  intros s Ha. split; [done|]. exists []. by rewrite app_nil_r.
Qed.

Lemma emits_getattr name : emits a R (getattr name).
Proof.
  intros s Ha. unfold getattr.
  destruct (attrs s !! name); (split; [done|]); exists [];
    by rewrite app_nil_r.
Qed.

Lemma emits_call c : (forall r, R [(c, r)]) -> emits a R (call c).
Proof.
  intros Hc s Ha. unfold call. destruct (ext c (world s)) as [w' r].
  split; [done|]. by exists [(c, r)].
Qed.

Lemma emits_bind {A B : Type} (p : M A) (k : A -> M B) :
  emits a R p -> (forall x, emits a R (k x)) -> emits a R (p ≫= k).
Proof.
  intros Hp Hk s Ha. unfold mbind, M_bind.
  destruct (Hp s Ha) as (Ha1 & es1 & Hes1 & HR1).
  destruct (p s) as [s1 [e|x]]; simpl in *.
  - split; [done|]. by exists es1.
  - destruct (Hk x s1 Ha1) as (Ha2 & es2 & Hes2 & HR2).
    split; [done|]. exists (es1 ++ es2). split; [|by apply R_app].
    by rewrite Hes2, Hes1, app_assoc.
Qed.

Lemma emits_for_each {A B : Type} (f : A -> M B) (l : list A) :
  (forall x, x ∈ l -> emits a R (f x)) -> emits a R (for_each f l).
Proof.
  induction l as [|x l IH]; intros Hf; simpl.
  - apply emits_ret.
  - apply emits_bind; [apply Hf; left|]. intros y.
    apply emits_bind; [|intros ys; apply emits_ret].
    apply IH. intros z Hz. apply Hf. by right.
Qed.

Lemma try_bind {A B : Type} (p : M A) (k : Exn + A -> M B) s :
  (try p ≫= k) s = k (p s).2 (p s).1.
Proof. unfold mbind, M_bind, try. by destruct (p s). Qed.

(** With debugging off nothing is logged; with debugging on, or off, at
    most the one call is made. *)
Lemma emits_debug_log_off fmt arg debug :
  a !! "_debug" = Some debug -> truthy debug = false ->
  emits a R (debug_log fmt arg).
Proof.
  intros Hd Hoff s Ha. unfold debug_log.
  rewrite (getattr_bind _ _ _ debug) by (by rewrite Ha).
  rewrite Hoff. by apply emits_ret.
Qed.

Lemma emits_debug_log fmt arg :
  (forall r, R [(logging_debug fmt arg, r)]) ->
  emits a R (debug_log fmt arg).
Proof.
  intros Hlog. apply emits_bind; [apply emits_getattr|]. intros debug.
  destruct (truthy debug); [|apply emits_ret].
  apply emits_bind; [by apply emits_call|]. intros _. apply emits_ret.
Qed.

(** The statement [with]: what the body added is wrapped between the
    entering and the exit, whichever way the body ended. *)
Lemma emits_with mgr body :
  (forall e, R [(context_enter mgr, inl e)]) ->
  (forall x es exc r,
     R es -> R ((context_enter mgr, inr x) :: es
                ++ [(context_exit mgr exc, r)])) ->
  (forall x, emits a R (body x)) ->
  emits a R (with_ mgr body).
Proof.
  intros Hfails Hwraps Hbody s Ha. unfold with_.
  destruct (ext (context_enter mgr) (world s)) as [w1 [e|x]] eqn:Henter.
  { rewrite (bind_raises _ _ _ _ _ (call_answered _ _ _ _ Henter)).
    split; [done|]. by exists [(context_enter mgr, inl e)]. }
  rewrite (call_bind _ _ _ _ _ Henter). cbn beta.
  set (s1 := after s [(context_enter mgr, inr x)] w1).
  destruct (Hbody x s1 Ha) as (Ha2 & es & Hes & HR).
  assert (forall s2 w3 exc (r : Outcome Obj),
            events s2 = events s1 ++ es ->
            exists es',
              events (after s2 [(context_exit mgr exc, r)] w3) =
                events s ++ es' /\ R es') as Hrecord.
  { intros s2 w3 exc r Hes2.
    exists ((context_enter mgr, inr x) :: es ++ [(context_exit mgr exc, r)]).
    split; [|by apply Hwraps].
    simpl. rewrite Hes2. simpl. by rewrite <- !app_assoc. }
  rewrite try_bind.
  destruct (body x s1) as [s2 [e|[]]]; simpl in Ha2, Hes; cbn [fst snd].
  - destruct (ext (context_exit mgr (Some e)) (world s2)) as [w3 [e'|v]]
      eqn:Hexit.
    + rewrite (bind_raises _ _ _ _ _ (call_answered _ _ _ _ Hexit)).
      split; [done|]. by apply Hrecord.
    + rewrite (call_bind _ _ _ _ _ Hexit).
      destruct (truthy v); (split; [done|]); by apply Hrecord.
  - destruct (ext (context_exit mgr None) (world s2)) as [w3 [e'|v]]
      eqn:Hexit.
    + rewrite (bind_raises _ _ _ _ _ (call_answered _ _ _ _ Hexit)).
      split; [done|]. by apply Hrecord.
    + rewrite (call_bind _ _ _ _ _ Hexit).
      split; [done|]. by apply Hrecord.
Qed.

(** The two compiling methods, for a set of records that takes their
    steps. *)
Section Methods.
Context (m : Obj).
Hypothesis R_fails : forall mgr e, R [(context_enter mgr, inl e)].
Hypothesis R_wraps : forall mgr x es exc r,
  R es -> R ((context_enter mgr, inr x) :: es ++ [(context_exit mgr exc, r)]).
Hypothesis R_step : forall c r,
  step_of m c -> is_context c = false -> is_logging c = false -> R [(c, r)].
Hypothesis R_log : forall fmt arg, emits a R (debug_log fmt arg).

Ltac emits :=
  repeat first
    [ apply emits_ret
    | apply emits_getattr
    | apply R_log
    | apply emits_call; intros ?; apply R_step; simpl; by auto
    | apply emits_with; [apply R_fails|apply R_wraps|intros ?]
    | apply emits_bind; [|intros ?] ].

Lemma emits_compile : emits a R (compile m).
Proof. unfold compile. emits. Qed.

Lemma emits_compile_object_graph : emits a R (compile_object_graph m).
Proof.
  unfold compile_object_graph.
  apply emits_bind; [emits|intros mgr].
  apply emits_bind; [emits|intros _].
  apply emits_compile.
Qed.
End Methods.
End Emits.

(** *** Reading a successful run backwards *)

Lemma bind_inv {A B : Type} (p : M A) (k : A -> M B) s s' b :
  (p ≫= k) s = (s', inr b) ->
  exists s1 x, p s = (s1, inr x) /\ k x s1 = (s', inr b).
Proof.
  unfold mbind, M_bind. destruct (p s) as [s1 [e|x]]; [done|].
  intros Hk. by exists s1, x.
Qed.

Lemma mret_inv {A : Type} (x y : A) (s s1 : State) :
  (mret x : M A) s = (s1, inr y) -> s1 = s /\ y = x.
Proof. by intros [= <- <-]. Qed.

Lemma call_inv c s s1 v :
  call c s = (s1, inr v) ->
  exists w1, ext c (world s) = (w1, inr v) /\ s1 = after s [(c, inr v)] w1.
Proof.
  unfold call. destruct (ext c (world s)) as [w1 r].
  intros [= <- ->]. by exists w1.
Qed.

Lemma getattr_inv name s s1 v :
  getattr name s = (s1, inr v) -> attrs s !! name = Some v /\ s1 = s.
Proof.
  unfold getattr. destruct (attrs s !! name); [|done]. by intros [= -> ->].
Qed.

Lemma debug_log_inv fmt arg s s1 u :
  debug_log fmt arg s = (s1, inr u) ->
  exists debug r w1,
    attrs s !! "_debug" = Some debug
    /\ plays (world s) (logged (truthy debug) fmt arg r) w1
    /\ s1 = after s (logged (truthy debug) fmt arg r) w1.
Proof.
  unfold debug_log. intros Hrun.
  apply bind_inv in Hrun as (s2 & debug & Hget & Hrun).
  apply getattr_inv in Hget as [Hd ->]. unfold logged.
  destruct (truthy debug) eqn:Htruthy.
  - apply bind_inv in Hrun as (s3 & r & Hc & Hret).
    apply call_inv in Hc as (w1 & Hc & ->). injection Hret as <-.
    exists debug, r, w1. rewrite Htruthy. split; [done|]. split; [|done].
    econstructor; [done|constructor].
  - injection Hrun as <-. exists debug, debug, (world s). rewrite Htruthy.
    split; [done|]. split; [constructor|by rewrite after_nothing].
Qed.

Lemma with_inv mgr body s s1 u :
  exit_passes_exceptions ->
  with_ mgr body s = (s1, inr u) ->
  exists x w1 s2 v w3,
    ext (context_enter mgr) (world s) = (w1, inr x)
    /\ body x (after s [(context_enter mgr, inr x)] w1) = (s2, inr tt)
    /\ ext (context_exit mgr None) (world s2) = (w3, inr v)
    /\ s1 = after s2 [(context_exit mgr None, inr v)] w3.
Proof.
  intros Hexit Hrun. unfold with_ in Hrun.
  apply bind_inv in Hrun as (s2 & x & Henter & Hrun).
  apply call_inv in Henter as (w1 & Henter & ->).
  rewrite try_bind in Hrun.
  destruct (body x _) as [s2 [e|[]]] eqn:Hbody; cbn [fst snd] in Hrun.
  - destruct (Hexit mgr e (world s2)) as (w3 & v & Hc & Hv).
    rewrite (call_bind _ _ _ _ _ Hc), Hv in Hrun. discriminate Hrun.
  - apply bind_inv in Hrun as (s3 & v & Hc & Hret).
    apply call_inv in Hc as (w3 & Hc & ->). injection Hret as <-.
    by exists x, w1, s2, v, w3.
Qed.

(** Undo the statements of a run that returned, first to last. *)
Ltac undo Hexit :=
  repeat (
    cbn beta in *;
    match goal with
    | H : call _ _ = (_, inr _) |- _ =>
        apply call_inv in H as (? & ? & ->)
    | H : getattr _ _ = (_, inr _) |- _ =>
        apply getattr_inv in H as (? & ->)
    | H : debug_log _ _ _ = (_, inr _) |- _ =>
        apply debug_log_inv in H as (? & ? & ? & ? & ? & ->)
    | H : with_ _ _ _ = (_, inr _) |- _ =>
        apply (with_inv _ _ _ _ _ Hexit) in H as (? & ? & ? & ? & ? & ? & H & ? & ->)
    | H : mret _ _ = (_, inr _) |- _ => apply mret_inv in H as [-> ?]
    | H : (_ ≫= _) _ = (_, inr _) |- _ =>
        apply bind_inv in H as (? & ? & ? & H)
    end);
  cbn [world attrs after] in *; simplify_eq.

(** Put the answered calls back together in the order of the goal. *)
Ltac replay :=
  repeat (
    cbn [app];
    first
      [ eapply plays_cons; [eassumption|]
      | apply plays_app; eexists; split; [eassumption|]
      | apply plays_nil ]).

Lemma compile_inv (m : Obj) (s s' : State) (jit_module : Obj) :
  exit_passes_exceptions ->
  compile m s = (s', inr jit_module) ->
  exists refjit debug a w',
    attrs s !! "_refjit" = Some refjit
    /\ attrs s !! "_debug" = Some debug
    /\ plays (world s)
         (compile_sequence (truthy debug) m refjit a (inr jit_module)) w'
    /\ s' = after s
              (compile_sequence (truthy debug) m refjit a (inr jit_module)) w'.
Proof.
  intros Hexit Hrun. unfold compile in Hrun. undo Hexit.
  eexists _, _, (Build_CompileAnswers _ _ _ _ _ _ _ _ _ _ _ _ _ _), _.
  split; [eassumption|]. split; [eassumption|].
  unfold compile_sequence.
  cbn [a_context a_entered a_log_initial a_log_running a_frontend_pm
       a_frontend_run a_log_tcf a_backend_pm a_build a_backend_run
       a_log_backend a_exit a_JITModule a_libs].
  split; [replay|].
  rewrite !after_after, <- ?app_assoc. reflexivity.
Qed.

Lemma compile_object_graph_inv (m : Obj) (s s' : State) (jit_module : Obj) :
  exit_passes_exceptions ->
  compile_object_graph m s = (s', inr jit_module) ->
  exists refjit debug la a w1 w',
    attrs s !! "_refjit" = Some refjit
    /\ attrs s !! "_debug" = Some debug
    /\ plays (world s) (lowering_sequence (truthy debug) m la) w1
    /\ plays w1
         (compile_sequence (truthy debug) m refjit a (inr jit_module)) w'
    /\ s' = after s
              (lowering_sequence (truthy debug) m la
               ++ compile_sequence (truthy debug) m refjit a
                    (inr jit_module)) w'.
Proof.
  intros Hexit Hrun. unfold compile_object_graph in Hrun. undo Hexit.
  match goal with
  | Hc : compile m _ = _ |- _ =>
      apply (compile_inv _ _ _ _ Hexit) in Hc
        as (refjit & debug & a & w' & Hrefjit & Hdebug & Hplays & ->)
  end.
  cbn [world attrs after] in *. simplify_eq.
  eexists _, _, (Build_LoweringAnswers _ _ _ _ _ _ _), a, _, w'.
  split; [eassumption|]. split; [eassumption|].
  unfold lowering_sequence.
  cbn [l_context l_entered l_log_initial l_log_running l_pm l_run l_exit].
  split; [replay|]. split; [eassumption|].
  rewrite !after_after, <- ?app_assoc. reflexivity.
Qed.

(** X1: [compile] returns a [jit_module] only after the whole sequence.
    Where a context left with an exception pending lets it through: if
    [compile] returns, then the backend has both its fields, every call of
    [compile_sequence] was made on the module, in order, and returned, and
    the value returned is what [from_compiled_module] returned. *)
Theorem compile_returns_only_after_the_whole_sequence
    (m : Obj) (s s' : State) (jit_module : Obj) :
  exit_passes_exceptions ->
  compile m s = (s', inr jit_module) ->
  exists refjit debug a w',
    attrs s !! "_refjit" = Some refjit
    /\ attrs s !! "_debug" = Some debug
    /\ plays (world s)
         (compile_sequence (truthy debug) m refjit a (inr jit_module)) w'
    /\ s' = after s
              (compile_sequence (truthy debug) m refjit a (inr jit_module)) w'.
Proof. apply compile_inv. Qed.

(** X2: [compile_object_graph] returns a [jit_module] only after the
    lowering pipeline and then the whole sequence of [compile] ran on the
    module, every call of both having returned (where a context left with
    an exception pending lets it through). *)
Theorem compile_object_graph_returns_only_after_both_sequences
    (m : Obj) (s s' : State) (jit_module : Obj) :
  exit_passes_exceptions ->
  compile_object_graph m s = (s', inr jit_module) ->
  exists refjit debug la a w1 w',
    attrs s !! "_refjit" = Some refjit
    /\ attrs s !! "_debug" = Some debug
    /\ plays (world s) (lowering_sequence (truthy debug) m la) w1
    /\ plays w1
         (compile_sequence (truthy debug) m refjit a (inr jit_module)) w'
    /\ s' = after s
              (lowering_sequence (truthy debug) m la
               ++ compile_sequence (truthy debug) m refjit a
                    (inr jit_module)) w'.
Proof. apply compile_object_graph_inv. Qed.

(** *** Every run, however it ends *)

Lemma entered_app es1 es2 : entered (es1 ++ es2) = entered es1 + entered es2.
Proof. unfold entered. by rewrite List.filter_app, length_app. Qed.

Lemma exited_app es1 es2 : exited (es1 ++ es2) = exited es1 + exited es2.
Proof. unfold exited. by rewrite List.filter_app, length_app. Qed.

(** X3: every context entered is left, once.  In every run of [compile] and
    of [compile_object_graph], returning or raising, and whatever the
    collaborators do, the calls made contain as many exits of a context as
    successful enterings. *)
Theorem contexts_entered_are_left (m : Obj) (s : State) :
  (exists es, events (compile m s).1 = events s ++ es
              /\ entered es = exited es)
  /\ (exists es, events (compile_object_graph m s).1 = events s ++ es
                 /\ entered es = exited es).
Proof.
  assert (forall mgr x es exc (r : Outcome Obj),
            entered es = exited es ->
            entered ((context_enter mgr, inr x) :: es
                     ++ [(context_exit mgr exc, r)]) =
              exited ((context_enter mgr, inr x) :: es
                      ++ [(context_exit mgr exc, r)])) as Hwraps.
  { intros mgr x es exc r Hes.
    change ((context_enter mgr, inr x) :: es ++ [(context_exit mgr exc, r)])
      with ([(context_enter mgr, inr x)] ++ es ++ [(context_exit mgr exc, r)]).
    rewrite !entered_app, !exited_app, Hes. unfold entered, exited. simpl.
    lia. }
  assert (forall (c : Call) (r : Outcome Obj),
            step_of m c -> is_context c = false -> is_logging c = false ->
            entered [(c, r)] = exited [(c, r)]) as Hstep.
  { intros c r _ Hc _. by destruct c. }
  assert (forall fmt arg,
            emits (attrs s) (fun es => entered es = exited es)
              (debug_log fmt arg)) as Hlog.
  { intros fmt arg. apply emits_debug_log; [done| |done].
    intros es1 es2 H1 H2. by rewrite entered_app, exited_app, H1, H2. }
  split.
  - refine (proj2 (emits_compile (attrs s) _ _ _ m _ Hwraps Hstep Hlog
                     s eq_refl)); [done| |done].
    intros es1 es2 H1 H2. by rewrite entered_app, exited_app, H1, H2.
  - refine (proj2 (emits_compile_object_graph (attrs s) _ _ _ m _ Hwraps
                     Hstep Hlog s eq_refl)); [done| |done].
    intros es1 es2 H1 H2. by rewrite entered_app, exited_app, H1, H2.
Qed.

Lemma emits_what_it_may (P : Event -> Prop) (m : Obj) (s : State) :
  (forall fmt arg, emits (attrs s) (Forall P) (debug_log fmt arg)) ->
  (forall mgr r, P (context_enter mgr, r)) ->
  (forall mgr exc r, P (context_exit mgr exc, r)) ->
  (forall c r, step_of m c -> is_context c = false ->
               is_logging c = false -> P (c, r)) ->
  (exists es, events (compile m s).1 = events s ++ es /\ Forall P es)
  /\ (exists es, events (compile_object_graph m s).1 = events s ++ es
                 /\ Forall P es).
Proof.
  intros Hlog Henter Hexit Hstep.
  assert (forall mgr x es exc (r : Outcome Obj),
            Forall P es ->
            Forall P ((context_enter mgr, inr x) :: es
                      ++ [(context_exit mgr exc, r)])) as Hwraps.
  { intros mgr x es exc r Hes. apply Forall_cons. split; [done|].
    apply Forall_app. split; [done|]. by apply Forall_singleton. }
  assert (forall (c : Call) (r : Outcome Obj),
            step_of m c -> is_context c = false -> is_logging c = false ->
            Forall P [(c, r)]) as Hstep'.
  { intros c r ???. apply Forall_singleton. by apply Hstep. }
  split.
  - refine (proj2 (emits_compile (attrs s) _ _ _ m _ Hwraps Hstep' Hlog
                     s eq_refl)); [done|apply Forall_app_2|].
    intros mgr e. by apply Forall_singleton.
  - refine (proj2 (emits_compile_object_graph (attrs s) _ _ _ m _ Hwraps
                     Hstep' Hlog s eq_refl)); [done|apply Forall_app_2|].
    intros mgr e. by apply Forall_singleton.
Qed.

(** X4: with debugging off nothing is logged.  On a backend whose [_debug]
    field holds no true value, no run of [compile] or of
    [compile_object_graph], returning or raising, calls [logging.debug]. *)
Theorem nothing_is_logged_with_debugging_off
    (m : Obj) (s : State) (debug : Obj) :
  attrs s !! "_debug" = Some debug ->
  truthy debug = false ->
  (exists es, events (compile m s).1 = events s ++ es
              /\ Forall (fun ev => is_logging ev.1 = false) es)
  /\ (exists es, events (compile_object_graph m s).1 = events s ++ es
                 /\ Forall (fun ev => is_logging ev.1 = false) es).
Proof.
  intros Hdebug Hoff. apply emits_what_it_may; try done.
  intros fmt arg. by eapply emits_debug_log_off.
Qed.

(** X5: compiling a module touches that module and the two pipelines of
    the file only.  In every run of [compile] and of [compile_object_graph]
    on [m], returning or raising, every context asked for, every pipeline
    run and every hand-over to the JIT is on [m], every pipeline parsed is
    one of the two joined pass lists, and no invoker is built and no tensor
    converted. *)
Theorem compiling_touches_only_the_module (m : Obj) (s : State) :
  (exists es, events (compile m s).1 = events s ++ es
              /\ Forall (fun ev => step_of m ev.1) es)
  /\ (exists es, events (compile_object_graph m s).1 = events s ++ es
                 /\ Forall (fun ev => step_of m ev.1) es).
Proof.
  apply emits_what_it_may; try done.
  intros fmt arg. apply emits_debug_log; [done|apply Forall_app_2|].
  intros r. by apply Forall_singleton.
Qed.

(** *** The invoker, when a conversion fails and in general *)

Lemma for_each_stops
    (pre pre' : list Obj) (t : Obj) (post : list Obj) s w1 w2 e :
  adapted pre pre' ->
  plays (world s) (conversions pre pre') w1 ->
  isinstance_Tensor t = true ->
  ext (Tensor_numpy t) w1 = (w2, inl e) ->
  for_each
    (fun arg => if isinstance_Tensor arg then call (Tensor_numpy arg)
                else mret arg) (pre ++ t :: post) s =
    (after s (conversions pre pre' ++ [(Tensor_numpy t, inl e)]) w2, inl e).
Proof.
  intros Had. revert s.
  induction Had as [|arg arg' pre pre' Hsame Had IH];
    intros s Hplays Htensor Hfails.
  - apply plays_nil_inv in Hplays as ->. cbn [app for_each].
    rewrite Htensor. unfold conversions. cbn [zip zip_with flat_map app].
    by rewrite (bind_raises _ _ _ _ _ (call_answered _ _ _ _ Hfails)).
  - unfold conversions in Hplays |- *.
    cbn [zip zip_with flat_map fst snd] in Hplays |- *.
    fold (conversions pre pre') in *.
    apply plays_app in Hplays as (w0 & Harg & Hrest).
    cbn [app for_each].
    destruct (isinstance_Tensor arg) eqn:Harg_tensor.
    + apply plays_cons_inv in Harg as (w0' & Hc & Hnil).
      apply plays_nil_inv in Hnil as ->.
      rewrite (call_bind _ _ _ _ _ Hc).
      erewrite bind_raises
        by (apply IH; cbn [world after]; eassumption).
      by rewrite after_after, <- app_assoc.
    + apply plays_nil_inv in Harg as ->.
      erewrite (bind_returns (mret arg)) by reflexivity.
      erewrite bind_raises by (apply IH; eassumption).
      reflexivity.
Qed.

(** X6: the invoker stops at the first tensor whose conversion fails.  If
    the arguments before it were converted and [numpy()] raises on the
    tensor [t], the invoker raises that exception, converts none of the
    arguments after [t], and never calls the function. *)
Theorem invoke_stops_at_the_first_failing_conversion
    (numpy_invoke : Obj) (pre pre' : list Obj) (t : Obj) (post : list Obj)
    (s : State) (w1 w2 : World) (e : Exn) :
  adapted pre pre' ->
  plays (world s) (conversions pre pre') w1 ->
  isinstance_Tensor t = true ->
  ext (Tensor_numpy t) w1 = (w2, inl e) ->
  invoke numpy_invoke (pre ++ t :: post) s =
    (after s (conversions pre pre' ++ [(Tensor_numpy t, inl e)]) w2, inl e).
Proof.
  intros Had Hplays Htensor Hfails. unfold invoke.
  by erewrite bind_raises by (by eapply for_each_stops).
Qed.

Lemma invoke_emits (numpy_invoke : Obj) (args : list Obj) (s : State) :
  exists es,
    events (invoke numpy_invoke args s).1 = events s ++ es
    /\ Forall (fun ev => conversion_of numpy_invoke args ev.1) es.
Proof.
  assert (emits (attrs s)
            (Forall (fun ev => conversion_of numpy_invoke args ev.1))
            (invoke numpy_invoke args)) as Hemits;
    [|exact (proj2 (Hemits s eq_refl))].
  unfold invoke. apply emits_bind; [apply Forall_app_2| |].
  - apply emits_for_each; [done|apply Forall_app_2|]. intros x Hx.
    destruct (isinstance_Tensor x) eqn:Htensor; [|by apply emits_ret].
    apply emits_call. intros r. by apply Forall_singleton.
  - intros args'. apply emits_call. intros r. by apply Forall_singleton.
Qed.

(** X7: whatever happens, the invoker calls nothing but [numpy()] on
    tensors among its arguments and the function it was made for: no
    [numpy()] on an argument that is no tensor, and no second lookup in the
    parent class. *)
Theorem invoke_calls_only_numpy_and_the_function
    (numpy_invoke : Obj) (args : list Obj) (s : State) :
  exists es,
    events (invoke numpy_invoke args s).1 = events s ++ es
    /\ Forall (fun ev => conversion_of numpy_invoke args ev.1) es.
Proof. apply invoke_emits. Qed.

(** *** A backend without its fields *)

Lemma with_raises mgr body s x w1 s2 e v w3 :
  ext (context_enter mgr) (world s) = (w1, inr x) ->
  body x (after s [(context_enter mgr, inr x)] w1) = (s2, inl e) ->
  ext (context_exit mgr (Some e)) (world s2) = (w3, inr v) ->
  truthy v = false ->
  with_ mgr body s =
    (after s2 [(context_exit mgr (Some e), inr v)] w3, inl e).
Proof.
  intros Henter Hbody Hexit Hv. unfold with_.
  rewrite (call_bind _ _ _ _ _ Henter), try_bind, Hbody. cbn [fst snd].
  by rewrite (call_bind _ _ _ _ _ Hexit), Hv.
Qed.

Lemma debug_log_unset fmt arg s :
  attrs s !! "_debug" = None ->
  debug_log fmt arg s = (s, inl (AttributeError "_debug")).
Proof.
  intros Hnone. unfold debug_log, mbind, M_bind, getattr. by rewrite Hnone.
Qed.

(** X8: on a backend that has no [_debug] field, one whose [__init__] did
    not run, [compile] and [compile_object_graph] raise the attribute error
    for [_debug] right after entering the context of the module, which is
    left again: no pipeline is parsed or run. *)
Theorem compiling_without_debug_field_raises
    (m : Obj) (s : State) (c x v : Obj) (w1 w2 w3 : World) :
  attrs s !! "_debug" = None ->
  ext (module_context m) (world s) = (w1, inr c) ->
  ext (context_enter c) w1 = (w2, inr x) ->
  ext (context_exit c (Some (AttributeError "_debug"))) w2 = (w3, inr v) ->
  truthy v = false ->
  let es := [(module_context m, inr c); (context_enter c, inr x);
             (context_exit c (Some (AttributeError "_debug")), inr v)] in
  compile m s = (after s es w3, inl (AttributeError "_debug"))
  /\ compile_object_graph m s = (after s es w3, inl (AttributeError "_debug")).
Proof.
  intros Hnone Hcontext Henter Hexit Hv es.
  assert (forall fmt arg (k : unit -> M unit) (rest : unit -> M Obj),
            (mgr ← call (module_context m);
             with_ mgr (fun _ => debug_log fmt arg ≫= k) ≫= rest) s =
              (after s es w3, inl (AttributeError "_debug"))) as Hraises.
  { intros fmt arg k rest. rewrite (call_bind _ _ _ _ _ Hcontext).
    assert (with_ c (fun _ => debug_log fmt arg ≫= k)
              (after s [(module_context m, inr c)] w1) =
              (after (after (after s [(module_context m, inr c)] w1)
                        [(context_enter c, inr x)] w2)
                 [(context_exit c (Some (AttributeError "_debug")), inr v)]
                 w3,
               inl (AttributeError "_debug"))) as Hwith.
    { eapply with_raises; [exact Henter| |exact Hexit|exact Hv].
      apply bind_raises. by apply debug_log_unset. }
    rewrite (bind_raises _ _ _ _ _ Hwith). by rewrite !after_after. }
  split; apply Hraises.
Qed.

(** *** Where exceptions come from *)

Section Sourced.
Context (a : gmap string Obj).

Lemma sourced_ret {A : Type} (x : A) : sourced a (mret x).
Proof.
  intros s Ha. split; [done|]. exists []. by rewrite app_nil_r.
Qed.

Lemma sourced_call c : sourced a (call c).
Proof.
  intros s Ha. unfold call. destruct (ext c (world s)) as [w' r].
  split; [done|]. exists [(c, r)]. split; [done|].
  simpl. intros e ->. exists c. by left.
Qed.

Lemma sourced_bind {A B : Type} (p : M A) (k : A -> M B) :
  sourced a p -> (forall x, sourced a (k x)) -> sourced a (p ≫= k).
Proof.
  intros Hp Hk s Ha. unfold mbind, M_bind.
  destruct (Hp s Ha) as (Ha1 & es1 & Hes1 & Hsrc1).
  destruct (p s) as [s1 [e|x]]; simpl in *.
  - split; [done|]. exists es1. split; [done|]. by intros ? [= <-]; auto.
  - destruct (Hk x s1 Ha1) as (Ha2 & es2 & Hes2 & Hsrc2).
    split; [done|]. exists (es1 ++ es2). split.
    + by rewrite Hes2, Hes1, app_assoc.
    + intros e He. destruct (Hsrc2 e He) as [c Hc].
      exists c. apply elem_of_app. by right.
Qed.

Lemma sourced_for_each {A B : Type} (f : A -> M B) (l : list A) :
  (forall x, sourced a (f x)) -> sourced a (for_each f l).
Proof.
  intros Hf. induction l as [|x l IH]; simpl.
  - apply sourced_ret.
  - apply sourced_bind; [done|]. intros y.
    apply sourced_bind; [done|]. intros ys. apply sourced_ret.
Qed.
End Sourced.

(** X10: the invoker raises nothing of its own: whenever it raises,
    a [numpy()] call or the function itself raised that exception. *)
Theorem invoke_raises_what_a_call_raised
    (numpy_invoke : Obj) (args : list Obj) (s : State) :
  exists es,
    events (invoke numpy_invoke args s).1 = events s ++ es
    /\ forall e, (invoke numpy_invoke args s).2 = inl e ->
         exists c, (c, inl e) ∈ es
                   /\ conversion_of numpy_invoke args c.
Proof.
  assert (sourced (attrs s) (invoke numpy_invoke args)) as Hsourced.
  { unfold invoke. apply sourced_bind; [|intros ?; apply sourced_call].
    apply sourced_for_each. intros x.
    destruct (isinstance_Tensor x); [apply sourced_call|apply sourced_ret]. }
  destruct (Hsourced s eq_refl) as (_ & es & Hes & Hsrc).
  destruct (invoke_emits numpy_invoke args s) as (es' & Hes' & Hconv).
  rewrite Hes in Hes'. apply app_inv_head in Hes' as <-.
  exists es. split; [done|]. intros e He.
  destruct (Hsrc e He) as [c Hc]. exists c. split; [done|].
  by apply (proj1 (Forall_forall _ _) Hconv (c, inl e)).
Qed.
End Runs.

(** ** The simulated environment at work *)

Section Simulation.
Import Sim.

Lemma sim_exit_passes_exceptions : exit_passes_exceptions.
Proof. intros mgr e w. by exists w, ONone. Qed.

Lemma sim_only_runs_change_ir : only_runs_change ir.
Proof.
  intros c w Hnorun. destruct c; simpl in *; try done;
    repeat case_match; done.
Qed.

Lemma sim_logging_is_benign : logging_is_benign core.
Proof. intros fmt arg w. by eexists _, ONone. Qed.

Lemma sim_core_determines : core_determines core.
Proof.
  intros c [ir1 pms1 log1 dbg1] [ir2 pms2 log2 dbg2] Hnolog [= -> -> ->].
  destruct c; simpl in *; try done; repeat case_match; done.
Qed.

(** Answer the calls of a concrete sequence one by one. *)
Ltac play :=
  repeat lazymatch goal with
  | |- @plays ?T ?E ?w ?es ?w' =>
      let es' := eval hnf in es in
      lazymatch es' with
      | (?c, ?r) :: ?rest =>
          let w1 := eval vm_compute in (@ext T E c w).1 in
          apply (@plays_cons T E w c w1 r rest w');
            [vm_compute; reflexivity|]
      | [] => apply (@plays_nil T E)
      end
  end.

(** [compile] on the module [forward], with debugging on. *)
Lemma compile_runs_frontend_backend_jit_sim :
  compile m0 (s0 true) =
    (after (s0 true)
       (compile_sequence true m0 ORefjit (compile_answers 0) (inr jit0))
       (w_compiled true),
     inr jit0).
Proof.
  refine (compile_runs_frontend_backend_jit
            (s0 true) m0 ORefjit (OBool true) (compile_answers 0)
            (inr jit0) (w_compiled true) _ _ _).
  - reflexivity.
  - reflexivity.
  - play.
Defined.

(** [compile_object_graph] on the module [forward], with debugging on. *)
Lemma compile_object_graph_lowers_then_compiles_sim :
  compile_object_graph m0 (s0 true) =
    compile m0
      (after (s0 true) (lowering_sequence true m0 lowering_answers)
         (w_lowered true)).
Proof.
  refine (compile_object_graph_lowers_then_compiles
            (s0 true) m0 (OBool true) lowering_answers (w_lowered true)
            _ _).
  - reflexivity.
  - play.
Defined.

(** The invoker of [forward], called with two tensors and an integer. *)
Lemma invoker_adapts_tensors_sim :
  exists inv,
    TorchJitModuleInvoker_getitem (OInvoker jit0) "forward" (s0 false) =
      (after (s0 false)
         [(JitModuleInvoker_getitem (OInvoker jit0) "forward",
           inr (OFunction "forward"))] w0,
       inr inv)
    /\ inv [OTensor 3; OInt 4; OTensor 5] (s0 false) =
         (after (s0 false)
            [(Tensor_numpy (OTensor 3), inr (ONdarray 3));
             (Tensor_numpy (OTensor 5), inr (ONdarray 5));
             (apply_function (OFunction "forward")
                [ONdarray 3; OInt 4; ONdarray 5], inr (OInt 3))] w0,
          inr (OInt 3)).
Proof.
  destruct (invoker_adapts_tensors (T:=types) (E:=externals)
              (OInvoker jit0) "forward" (s0 false) w0 (OFunction "forward")
              eq_refl) as (inv & Hget & Hinv).
  exists inv. split; [exact Hget|].
  refine (proj2 (Hinv (s0 false) [OTensor 3; OInt 4; OTensor 5]
                   [ONdarray 3; OInt 4; ONdarray 5] w0 w0 (inr (OInt 3))
                   _ _ _)).
  - repeat constructor; discriminate.
  - play.
  - reflexivity.
Defined.

(** [compile_object_graph] on a module the lowering pipeline fails on:
    the failure is the outcome, and only the context is left after it. *)
Lemma failures_propagate_sim :
  (compile_object_graph m_invalid (s0 true)).2 = inl pipeline_failure
  /\ Forall (exit_carrying pipeline_failure)
       [(context_exit OContext (Some pipeline_failure), inr ONone)].
Proof.
  refine (failures_propagate m_invalid (s0 true)
            (compile_object_graph m_invalid (s0 true)).1
            (compile_object_graph m_invalid (s0 true)).2
            [(module_context m_invalid, inr OContext);
             (context_enter OContext, inr OContext);
             (logging_debug
                ("Initial PyTorch object graph IR:" +:+ nl +:+ "{}")
                (AObj m_invalid), inr ONone);
             (logging_debug
                "Running Torch object graph lowering pipeline '{}'"
                (AStr lowering), inr ONone);
             (PassManager_parse lowering, inr (OPassManager 0))]
            [(context_exit OContext (Some pipeline_failure), inr ONone)]
            (PassManager_run (OPassManager 0) m_invalid) pipeline_failure
            sim_exit_passes_exceptions _ _).
  - right. apply surjective_pairing.
  - vm_compute. reflexivity.
Defined.

(** C6, as it stands, fails: [compile] on the module [forward], with
    debugging off, succeeds after eleven calls, not three. *)
Lemma compile_makes_eleven_calls_not_three :
  (compile m0 (s0 false)).2 = inr jit0
  /\ length (events (compile m0 (s0 false)).1) = 11
  /\ ~ three_delegate_calls.
Proof.
  split; [by vm_compute|]. split; [by vm_compute|].
  intros Hthree.
  destruct (Hthree (s0 false) m0
              (compile (T:=types) (E:=externals) m0 (s0 false)).1 jit0)
    as (es & Hes & Hlen).
  - by vm_compute.
  - simpl in Hes. apply (f_equal length) in Hes. rewrite Hlen in Hes.
    vm_compute in Hes. discriminate Hes.
Qed.

(** The same run, counted. *)
Lemma compile_call_count_sim :
  exists es,
    compile m0 (s0 false) = (after (s0 false) es (w_compiled false), inr jit0)
    /\ length es = 11
    /\ count is_invocation es = 7
    /\ count is_run es = 2
    /\ count is_from_compiled_module es = 1.
Proof.
  refine (compile_call_count
            (s0 false) m0 ORefjit (OBool false) (compile_answers 0)
            (inr jit0) (w_compiled false) _ _ _ _).
  - reflexivity.
  - reflexivity.
  - reflexivity.
  - play.
Defined.

(** A backend built in a fresh world, then put to use three times, the
    last time on a module that fails to compile. *)
Lemma backend_fields_are_fixed_sim :
  CompilerBackend_init s_fresh = (s_init, inr tt)
  /\ attrs (perform_all
              [call_compile m0; call_load jit0;
               call_compile_object_graph m_invalid] s_init) =
       <["_debug" := OBool false]> (<["_refjit" := ORefjit]> ∅).
Proof.
  assert (CompilerBackend_init s_fresh = (s_init, inr tt)) as Hinit
    by reflexivity.
  split; [exact Hinit|].
  destruct (backend_fields_are_fixed s_fresh s_init Hinit) as [_ Hfixed].
  exact (Hfixed [call_compile m0; call_load jit0;
                 call_compile_object_graph m_invalid]).
Defined.

Lemma sim_strict_only_runs_change_ir :
  only_runs_change (E := SimStrict.externals) ir.
Proof.
  intros c w Hnorun. destruct c; simpl in *; try done;
    repeat case_match; done.
Qed.

Lemma sim_strict_runs_lower (m : obj) :
  runs_lower (E := SimStrict.externals) ir length m.
Proof.
  intros pm w w' r Hrun. simpl in Hrun. unfold SimStrict.answer in Hrun.
  simpl in Hrun. repeat case_match; simplify_eq; simpl;
    rewrite length_app; simpl; lia.
Qed.


(** [compile] and [compile_object_graph] on [forward], with debugging on
    and with debugging off. *)
Lemma debug_flag_changes_only_the_log_sim :
  ((compile m0 (s0 true)).2 = (compile m0 (s0 false)).2
   /\ core (world (compile m0 (s0 true)).1) =
        core (world (compile m0 (s0 false)).1)
   /\ nolog (events (compile m0 (s0 true)).1) =
        nolog (events (compile m0 (s0 false)).1))
  /\ ((compile_object_graph m0 (s0 true)).2 =
        (compile_object_graph m0 (s0 false)).2
      /\ core (world (compile_object_graph m0 (s0 true)).1) =
           core (world (compile_object_graph m0 (s0 false)).1)
      /\ nolog (events (compile_object_graph m0 (s0 true)).1) =
           nolog (events (compile_object_graph m0 (s0 false)).1)).
Proof.
  refine (debug_flag_changes_only_the_log core m0 (s0 true) (s0 false)
            (OBool true) (OBool false)
            sim_logging_is_benign sim_core_determines _ _ _ _ _);
    reflexivity.
Defined.
End Simulation.

(** ** Whole runs in the simulated environment *)

Section SimulatedRuns.
Import Sim.

Ltac play :=
  repeat lazymatch goal with
  | |- @plays ?T ?E ?w ?es ?w' =>
      let es' := eval hnf in es in
      lazymatch es' with
      | (?c, ?r) :: ?rest =>
          let w1 := eval vm_compute in (@ext T E c w).1 in
          apply (@plays_cons T E w c w1 r rest w');
            [vm_compute; reflexivity|]
      | [] => apply (@plays_nil T E)
      end
  end.

(** [compile] returned on the module [forward]: read backwards. *)
Lemma compile_returns_only_after_the_whole_sequence_sim :
  exists refjit debug a w',
    attrs (s0 true) !! "_refjit" = Some refjit
    /\ attrs (s0 true) !! "_debug" = Some debug
    /\ plays (world (s0 true))
         (compile_sequence (truthy debug) m0 refjit a (inr jit0)) w'
    /\ (compile m0 (s0 true)).1 =
         after (s0 true)
           (compile_sequence (truthy debug) m0 refjit a (inr jit0)) w'.
Proof.
  refine (compile_returns_only_after_the_whole_sequence
            m0 (s0 true) (compile m0 (s0 true)).1 jit0
            sim_exit_passes_exceptions _).
  vm_compute. reflexivity.
Defined.

(** [compile_object_graph] returned on the module [forward]. *)
Lemma compile_object_graph_returns_only_after_both_sequences_sim :
  exists refjit debug la a w1 w',
    attrs (s0 true) !! "_refjit" = Some refjit
    /\ attrs (s0 true) !! "_debug" = Some debug
    /\ plays (world (s0 true)) (lowering_sequence (truthy debug) m0 la) w1
    /\ plays w1
         (compile_sequence (truthy debug) m0 refjit a
            (inr (OJit (lowering :: compiled_ir)))) w'
    /\ (compile_object_graph m0 (s0 true)).1 =
         after (s0 true)
           (lowering_sequence (truthy debug) m0 la
            ++ compile_sequence (truthy debug) m0 refjit a
                 (inr (OJit (lowering :: compiled_ir)))) w'.
Proof.
  refine (compile_object_graph_returns_only_after_both_sequences
            m0 (s0 true) (compile_object_graph m0 (s0 true)).1
            (OJit (lowering :: compiled_ir))
            sim_exit_passes_exceptions _).
  vm_compute. reflexivity.
Defined.

(** Both methods on the module [forward], with debugging off. *)
Lemma nothing_is_logged_with_debugging_off_sim :
  (exists es, events (compile m0 (s0 false)).1 = events (s0 false) ++ es
              /\ Forall (fun ev => is_logging ev.1 = false) es)
  /\ (exists es,
        events (compile_object_graph m0 (s0 false)).1 =
          events (s0 false) ++ es
        /\ Forall (fun ev => is_logging ev.1 = false) es).
Proof.
  refine (nothing_is_logged_with_debugging_off
            m0 (s0 false) (OBool false) _ _); reflexivity.
Defined.

(** The invoker of [forward], called with a tensor that requires grad in
    third place: the tensor after it is not converted. *)
Lemma invoke_stops_at_the_first_failing_conversion_sim :
  invoke (E := SimGrad.externals) (OFunction "forward")
    ([OTensor 3; OInt 4] ++ OTensor 0 :: [OTensor 5]) (s0 false) =
    (after (s0 false)
       [(Tensor_numpy (OTensor 3), inr (ONdarray 3));
        (Tensor_numpy (OTensor 0), inl SimGrad.requires_grad)] w0,
     inl SimGrad.requires_grad).
Proof.
  refine (invoke_stops_at_the_first_failing_conversion
            (E := SimGrad.externals) (OFunction "forward")
            [OTensor 3; OInt 4] [ONdarray 3; OInt 4] (OTensor 0) [OTensor 5]
            (s0 false) w0 w0 SimGrad.requires_grad _ _ _ _).
  - repeat constructor; discriminate.
  - play.
  - reflexivity.
  - reflexivity.
Defined.

(** Both methods on a backend whose [__init__] did not run. *)
Lemma compiling_without_debug_field_raises_sim :
  let es := [(module_context m0, inr OContext);
             (context_enter OContext, inr OContext);
             (context_exit OContext (Some (AttributeError "_debug")),
              inr ONone)] in
  compile m0 s_fresh = (after s_fresh es w0, inl (AttributeError "_debug"))
  /\ compile_object_graph m0 s_fresh =
       (after s_fresh es w0, inl (AttributeError "_debug")).
Proof.
  refine (compiling_without_debug_field_raises
            m0 s_fresh OContext OContext ONone w0 w0 w0 _ _ _ _ _);
    reflexivity.
Defined.

End SimulatedRuns.
